(** * EncryptedOKRPlatformFHE: a shallow embedding of the contract

    The contract keeps an append-only ledger of encrypted OKR records, a
    per-team member list, a per-team encrypted aggregate and the table of
    decryption requests.  Storage mappings are finite maps read with the
    Solidity default value; [uint256], [bytes32] and [address] values are
    integers; a call either returns the next contract state or reverts. *)

From Stdlib Require Import ZArith List Lia.
From Stdlib.Strings Require Import Byte.
From stdpp Require Import gmap strings list fin_maps.

Open Scope Z_scope.

(** ** The FHE library, as the contract sees it *)

(** The operations of [FHE] the contract calls.  [nullHandle] is the value
    an [euint32] storage slot holds before it is written. *)
Class FHE := {
  euint32 : Type;
  nullHandle : euint32;
  asEuint32 : Z -> euint32;
  add : euint32 -> euint32 -> euint32;
  isInitialized : euint32 -> bool;
  toBytes32 : euint32 -> Z;
  checkSignatures : Z -> list byte -> list byte -> bool
}.

(** What the library promises about handles: the blank slot is not
    initialized, and every handle the library returns is. *)
Class FHEHandles (fhe : FHE) : Prop := {
  null_uninitialized : isInitialized nullHandle = false;
  asEuint32_initialized : forall v, isInitialized (asEuint32 v) = true;
  add_initialized : forall a b, isInitialized (add a b) = true
}.

Definition MAX_UINT256 : Z := 2 ^ 256 - 1.
Definition MAX_UINT32 : Z := 2 ^ 32 - 1.

(** Addition of [uint32] plaintexts, which [FHE.add] mirrors. *)
Definition plainAdd (x y : Z) : Z := (x + y) mod 2 ^ 32.

(** A plaintext mirror of the ciphertexts: what each handle decrypts to. *)
Class Mirror (fhe : FHE) := { decrypt : euint32 -> Z }.

Class MirrorLaws (fhe : FHE) (mir : Mirror fhe) : Prop := {
  decrypt_range : forall c, 0 <= decrypt c <= MAX_UINT32;
  decrypt_asEuint32 : forall v, decrypt (asEuint32 v) = v mod 2 ^ 32;
  decrypt_add : forall a b, decrypt (add a b) = plainAdd (decrypt a) (decrypt b);
  decrypt_uninitialized : forall c, isInitialized c = false -> decrypt c = 0
}.

(** ** Reverts *)

Inductive RevertReason :=
| RequireFailed (msg : string)
| Panic (code : Z)
| InvalidKMSSignatures
| AbiDecodeFailed.

Inductive Result (A : Type) :=
| Ok (a : A)
| Revert (r : RevertReason).

Arguments Ok {A} a.
Arguments Revert {A} r.

(** ** ABI decoding of the callback payload *)

Definition beValue (bs : list byte) : Z :=
  fold_left (fun acc b => acc * 256 + Z.of_N (Byte.to_N b)) bs 0.

(** [abi.decode(cleartexts, (uint32))]: one 32-byte big-endian word whose
    value fits 32 bits. *)
Definition abiDecodeUint32 (data : list byte) : option Z :=
  if (Z.of_nat (length data) <? 32) then None
  else let v := beValue (take 32 data) in
       if v <=? MAX_UINT32 then Some v else None.

Section Contract.

Context {fhe : FHE}.

(** ** Storage *)

Record EncryptedOKR := {
  id : Z;
  owner : Z;
  encryptedObjective : euint32;
  encryptedKeyResults : euint32;
  encryptedProgress : euint32;
  timestamp : Z
}.

Record EncryptedAggregate := {
  idHash : Z;
  encryptedSum : euint32;
  lastUpdated : Z
}.

Inductive Event :=
| OKRSubmitted (okrId ownerAddr ts : Z)
| TeamAggregated (teamId ts : Z)
| DecryptionRequested (requestId : Z)
| AggregateDecrypted (teamId clearValue : Z).

Record State := {
  okrCount : Z;
  encryptedOkrs : gmap Z EncryptedOKR;
  teamAggregates : gmap Z EncryptedAggregate;
  teamMembers : gmap Z (list Z);
  requestToOkrId : gmap Z Z;
  requestToTeamId : gmap Z Z;
  counterRequest : Z;
  events : list Event
}.

(** The transaction environment of a call. *)
Record Call := {
  msg_sender : Z;
  block_timestamp : Z
}.

Definition blankOKR : EncryptedOKR :=
  {| id := 0; owner := 0; encryptedObjective := nullHandle;
     encryptedKeyResults := nullHandle; encryptedProgress := nullHandle;
     timestamp := 0 |}.

Definition blankAggregate : EncryptedAggregate :=
  {| idHash := 0; encryptedSum := nullHandle; lastUpdated := 0 |}.

(** Reads of the storage mappings. *)
Definition okrAt (s : State) (i : Z) : EncryptedOKR :=
  default blankOKR (encryptedOkrs s !! i).

Definition aggregateAt (s : State) (teamId : Z) : EncryptedAggregate :=
  default blankAggregate (teamAggregates s !! teamId).

Definition membersAt (s : State) (teamId : Z) : list Z :=
  default [] (teamMembers s !! teamId).

Definition teamOfRequest (s : State) (requestId : Z) : Z :=
  default 0 (requestToTeamId s !! requestId).

(** The contract as deployed. *)
Definition initialState : State :=
  {| okrCount := 0; encryptedOkrs := ∅; teamAggregates := ∅;
     teamMembers := ∅; requestToOkrId := ∅; requestToTeamId := ∅;
     counterRequest := 0; events := [] |}.

(** ** Modifiers *)

(** [onlyOwner] and [onlyTeamMember] run the body and nothing else. *)
Definition onlyOwner (okrId : Z) (body : Result State) : Result State := body.

Definition onlyTeamMember (teamId : Z) (body : Result State) : Result State := body.

(** ** submitEncryptedOKR *)

Definition submitEncryptedOKR (ctx : Call)
  (encObjective encKeyResults encProgress : euint32) (teamId : Z)
  (s : State) : Result State :=
  if okrCount s + 1 >? MAX_UINT256 then Revert (Panic 17)
  else
    let newId := okrCount s + 1 in
    Ok {| okrCount := newId;
          encryptedOkrs :=
            <[newId := {| id := newId; owner := msg_sender ctx;
                          encryptedObjective := encObjective;
                          encryptedKeyResults := encKeyResults;
                          encryptedProgress := encProgress;
                          timestamp := block_timestamp ctx |}]>
              (encryptedOkrs s);
          teamAggregates := teamAggregates s;
          teamMembers :=
            <[teamId := membersAt s teamId ++ [msg_sender ctx]]> (teamMembers s);
          requestToOkrId := requestToOkrId s;
          requestToTeamId := requestToTeamId s;
          counterRequest := counterRequest s;
          events := events s
                    ++ [OKRSubmitted newId (msg_sender ctx) (block_timestamp ctx)] |}.

(** ** findLatestEncryptedProgress *)

(** The scan [for (i = n; i >= 1; i--)] over the ledger. *)
Fixpoint scanLatest (s : State) (who : Z) (n : nat) : euint32 :=
  match n with
  | O => asEuint32 0
  | S k =>
      let e := okrAt s (Z.of_nat (S k)) in
      if decide (owner e = who) then encryptedProgress e
      else scanLatest s who k
  end.

Definition findLatestEncryptedProgress (who : Z) (s : State) : euint32 :=
  scanLatest s who (Z.to_nat (okrCount s)).

(** ** recomputeTeamAggregate *)

(** One [FHE.add] call, with its operands. *)
Inductive FheCall := CallAdd (lhs rhs : euint32).

(** The loop over the members: the accumulator, and the [FHE.add] calls
    made so far, oldest first. *)
Fixpoint aggregateLoop (s : State) (members : list Z)
  (acc : euint32) (calls : list FheCall) : euint32 * list FheCall :=
  match members with
  | [] => (acc, calls)
  | m :: rest =>
      let memberProgress := findLatestEncryptedProgress m s in
      if isInitialized memberProgress
      then aggregateLoop s rest (add acc memberProgress)
             (calls ++ [CallAdd acc memberProgress])
      else aggregateLoop s rest acc calls
  end.

Definition aggregateOf (teamId : Z) (s : State) : euint32 * list FheCall :=
  aggregateLoop s (membersAt s teamId) (asEuint32 0) [].

Definition recomputeTeamAggregate (ctx : Call) (teamId : Z) (s : State)
  : Result State :=
  let acc := fst (aggregateOf teamId s) in
  Ok {| okrCount := okrCount s;
        encryptedOkrs := encryptedOkrs s;
        teamAggregates :=
          <[teamId := {| idHash := teamId; encryptedSum := acc;
                         lastUpdated := block_timestamp ctx |}]>
            (teamAggregates s);
        teamMembers := teamMembers s;
        requestToOkrId := requestToOkrId s;
        requestToTeamId := requestToTeamId s;
        counterRequest := counterRequest s;
        events := events s ++ [TeamAggregated teamId (block_timestamp ctx)] |}.

(** The [FHE.add] calls one recomputation makes. *)
Definition recomputeAddCalls (teamId : Z) (s : State) : list FheCall :=
  snd (aggregateOf teamId s).

(** ** requestTeamAggregateDecryption *)

(** Modelled from the spec: [FHE.requestDecryption], of which only the call
    is in the contract, allocates a fresh request id; here the next value of
    a counter kept with the contract's storage. *)
Definition requestDecryption (ciphertexts : list Z) (s : State) : Z * Z :=
  (counterRequest s, counterRequest s + 1).

Definition requestTeamAggregateDecryption (ctx : Call) (teamId : Z) (s : State)
  : Result State :=
  onlyTeamMember teamId
    (let agg := aggregateAt s teamId in
     if isInitialized (encryptedSum agg) then
       let ciphertexts := [toBytes32 (encryptedSum agg)] in
       let '(reqId, counter') := requestDecryption ciphertexts s in
       Ok {| okrCount := okrCount s;
             encryptedOkrs := encryptedOkrs s;
             teamAggregates := teamAggregates s;
             teamMembers := teamMembers s;
             requestToOkrId := requestToOkrId s;
             requestToTeamId := <[reqId := teamId]> (requestToTeamId s);
             counterRequest := counter';
             events := events s ++ [DecryptionRequested reqId] |}
     else Revert (RequireFailed "No aggregate")).

(** ** decryptTeamAggregate *)

Definition decryptTeamAggregate (ctx : Call) (requestId : Z)
  (cleartexts proof : list byte) (s : State) : Result State :=
  let teamId := teamOfRequest s requestId in
  if decide (idHash (aggregateAt s teamId) = 0)
  then Revert (RequireFailed "Invalid team")
  else if negb (checkSignatures requestId cleartexts proof)
  then Revert InvalidKMSSignatures
  else match abiDecodeUint32 cleartexts with
       | None => Revert AbiDecodeFailed
       | Some clearValue =>
           Ok {| okrCount := okrCount s;
                 encryptedOkrs := encryptedOkrs s;
                 teamAggregates := teamAggregates s;
                 teamMembers := teamMembers s;
                 requestToOkrId := requestToOkrId s;
                 requestToTeamId := requestToTeamId s;
                 counterRequest := counterRequest s;
                 events := events s ++ [AggregateDecrypted teamId clearValue] |}
       end.

(** ** View helpers *)

Definition getEncryptedOKR (okrId : Z) (s : State) : EncryptedOKR := okrAt s okrId.

Definition getEncryptedAggregate (teamId : Z) (s : State) : euint32 * Z :=
  let a := aggregateAt s teamId in (encryptedSum a, lastUpdated a).

(** ** Transactions *)

Inductive Op :=
| SubmitEncryptedOKR (ctx : Call)
    (encObjective encKeyResults encProgress : euint32) (teamId : Z)
| RecomputeTeamAggregate (ctx : Call) (teamId : Z)
| RequestTeamAggregateDecryption (ctx : Call) (teamId : Z)
| DecryptTeamAggregate (ctx : Call) (requestId : Z) (cleartexts proof : list byte).

Definition call (op : Op) (s : State) : Result State :=
  match op with
  | SubmitEncryptedOKR ctx o k p t => submitEncryptedOKR ctx o k p t s
  | RecomputeTeamAggregate ctx t => recomputeTeamAggregate ctx t s
  | RequestTeamAggregateDecryption ctx t => requestTeamAggregateDecryption ctx t s
  | DecryptTeamAggregate ctx r c p => decryptTeamAggregate ctx r c p s
  end.

(** A transaction that reverts leaves the storage and the log as they were. *)
Definition transact (op : Op) (s : State) : State :=
  match call op s with
  | Ok s' => s'
  | Revert _ => s
  end.

Definition run (ops : list Op) (s : State) : State :=
  fold_left (fun st op => transact op st) ops s.

Definition reachable (s : State) : Prop := exists ops, s = run ops initialState.

End Contract.

(** ** Sequences of submissions *)

Section Submissions.

Context {fhe : FHE}.

Record Submission := {
  sub_ctx : Call;
  sub_objective : euint32;
  sub_keyResults : euint32;
  sub_progress : euint32;
  sub_team : Z
}.

Definition sub_sender (x : Submission) : Z := msg_sender (sub_ctx x).

Definition submitOne (x : Submission) (s : State) : Result State :=
  submitEncryptedOKR (sub_ctx x) (sub_objective x) (sub_keyResults x)
    (sub_progress x) (sub_team x) s.

(** The submissions in order, each on the state the previous one left. *)
Fixpoint submitAll (subs : list Submission) (s : State) : Result State :=
  match subs with
  | [] => Ok s
  | x :: rest =>
      match submitOne x s with
      | Ok s' => submitAll rest s'
      | Revert r => Revert r
      end
  end.

Definition submitOp (x : Submission) : Op :=
  SubmitEncryptedOKR (sub_ctx x) (sub_objective x) (sub_keyResults x)
    (sub_progress x) (sub_team x).

(** The record a submission creates when it is given the id [i]. *)
Definition recordOf (i : Z) (x : Submission) : EncryptedOKR :=
  {| id := i; owner := sub_sender x;
     encryptedObjective := sub_objective x;
     encryptedKeyResults := sub_keyResults x;
     encryptedProgress := sub_progress x;
     timestamp := block_timestamp (sub_ctx x) |}.

(** The [OKRSubmitted] events of submissions that receive the ids
    [first], [first + 1], ... *)
Fixpoint submittedEvents (first : Z) (subs : list Submission) : list Event :=
  match subs with
  | [] => []
  | x :: rest =>
      OKRSubmitted first (sub_sender x) (block_timestamp (sub_ctx x))
        :: submittedEvents (first + 1) rest
  end.

Definition eventId (e : Event) : option Z :=
  match e with
  | OKRSubmitted i _ _ => Some i
  | _ => None
  end.

(** The ids [first], [first + 1], ..., [first + n - 1]. *)
Fixpoint idsFrom (first : Z) (n : nat) : list Z :=
  match n with
  | O => []
  | S k => first :: idsFrom (first + 1) k
  end.

(** The spec's membership of a team: the senders of the submissions made to
    it, in submission order, repeats kept. *)
Fixpoint membership (subs : list Submission) (teamId : Z) : list Z :=
  match subs with
  | [] => []
  | x :: rest =>
      if decide (sub_team x = teamId) then sub_sender x :: membership rest teamId
      else membership rest teamId
  end.

(** The spec's latest submission of an owner: the last one in the sequence
    that the owner sent, to whichever team. *)
Fixpoint latestSubmission (subs : list Submission) (who : Z) : option Submission :=
  match subs with
  | [] => None
  | x :: rest =>
      match latestSubmission rest who with
      | Some y => Some y
      | None => if decide (sub_sender x = who) then Some x else None
      end
  end.

End Submissions.

(** ** Notions used in the statements *)

Section Notions.

Context {fhe : FHE}.

(** The ciphertext the spec resolves for an owner. *)
Definition resolved (subs : list Submission) (who : Z) : euint32 :=
  match latestSubmission subs who with
  | Some x => sub_progress x
  | None => asEuint32 0
  end.

(** The ciphertext an [FHE.add] call adds to the accumulator. *)
Definition callRhs (c : FheCall) : euint32 :=
  match c with CallAdd _ rhs => rhs end.

(** Transactions other than submissions. *)
Definition isSubmission (op : Op) : bool :=
  match op with
  | SubmitEncryptedOKR _ _ _ _ _ => true
  | _ => false
  end.

(** What holds of every state the contract can reach: a stored aggregate
    carries its team's id; request ids, recorded or logged, are below the
    counter; no decryption of team 0 is in the log; every recorded request
    was logged. *)
Record Inv (s : State) : Prop := {
  inv_idHash : forall T a, teamAggregates s !! T = Some a -> idHash a = T;
  inv_requests : forall r, is_Some (requestToTeamId s !! r) -> 0 <= r < counterRequest s;
  inv_requested : forall r, DecryptionRequested r ∈ events s -> 0 <= r < counterRequest s;
  inv_counter : 0 <= counterRequest s;
  inv_team0 : forall v, AggregateDecrypted 0 v ∉ events s;
  inv_logged : forall r, is_Some (requestToTeamId s !! r) -> DecryptionRequested r ∈ events s
}.

(** With a library that returns initialized handles, every stored
    aggregate is initialized. *)
Definition aggregatesInitialized (s : State) : Prop :=
  forall T a, teamAggregates s !! T = Some a -> isInitialized (encryptedSum a) = true.

End Notions.

(** ** The plaintext oracle of the aggregation *)

Section Oracle.

Context {fhe : FHE} {mir : Mirror fhe}.

(** The latest submitted progress of an owner, zero without a record. *)
Definition latestPlain (subs : list Submission) (who : Z) : Z :=
  match latestSubmission subs who with
  | Some x => decrypt (sub_progress x)
  | None => 0
  end.

(** The plaintext sum over the membership list, entry by entry. *)
Definition plaintextSum (subs : list Submission) (teamId : Z) : Z :=
  fold_left (fun acc who => plainAdd acc (latestPlain subs who))
    (membership subs teamId) 0.

End Oracle.

(** ** A plaintext-mirroring FHE library *)

Module PlainMirror.

(** A handle is blank or carries the plaintext it stands for. *)
Inductive handle :=
| HNull
| HVal (v : Z).

Definition clear (h : handle) : Z :=
  match h with
  | HNull => 0
  | HVal v => v mod 2 ^ 32
  end.

(** The one proof the fake verifier accepts. *)
Definition validProof : list byte := [x01].

#[export] Instance mirrorFHE : FHE := {|
  euint32 := handle;
  nullHandle := HNull;
  asEuint32 := fun v => HVal (v mod 2 ^ 32);
  add := fun a b => HVal (plainAdd (clear a) (clear b));
  isInitialized := fun h => match h with HNull => false | HVal _ => true end;
  toBytes32 := fun h => match h with HNull => 0 | HVal v => v + 1 end;
  checkSignatures := fun _ _ proof =>
    match proof with
    | [x01] => true
    | _ => false
    end
|}.

#[export] Instance mirrorOracle : Mirror mirrorFHE := {| decrypt := clear |}.

(** A 32-byte word holding a small value. *)
Definition word32 (b : byte) : list byte := replicate 31 x00 ++ [b].

Definition alice : Z := 10.
Definition bob : Z := 11.
Definition team1 : Z := 1.
Definition team2 : Z := 2.

Definition stranger : Z := 99.

Definition at_ (who ts : Z) : Call := {| msg_sender := who; block_timestamp := ts |}.

Definition sub (who ts : Z) (progress : handle) (teamId : Z) : Submission :=
  {| sub_ctx := at_ who ts; sub_objective := HVal 1; sub_keyResults := HVal 2;
     sub_progress := progress; sub_team := teamId |}.

Definition sub40 : Submission := sub alice 100 (HVal 40) team1.
Definition sub60 : Submission := sub bob 101 (HVal 60) team1.
Definition sub20 : Submission := sub alice 100 (HVal 20) team1.
Definition sub80 : Submission := sub alice 101 (HVal 80) team1.
Definition subNull : Submission := sub alice 100 HNull team1.

(** Alice and Bob submit 40 and 60 to team 1, and the team is aggregated. *)
Definition scenario : list Op :=
  [submitOp sub40; submitOp sub60; RecomputeTeamAggregate (at_ bob 102) team1].

Definition sAggregated : State := run scenario initialState.

(** Then someone who never submitted asks for the decryption. *)
Definition sRequested : State :=
  transact (RequestTeamAggregateDecryption (at_ stranger 103) team1) sAggregated.

(** The oracle's answer: the cleartext 100 with the accepted proof. *)
Definition answer100 : list byte := word32 x64.

(** One submission to team 1, with an initialized and with a blank progress. *)
Definition sOneInitialized : State := transact (submitOp sub40) initialState.
Definition sOneBlank : State := transact (submitOp subNull) initialState.

(** A submission, a recomputation and a decryption request for team 0. *)
Definition zeroTeamOps : list Op :=
  [submitOp (sub alice 100 (HVal 40) 0);
   RecomputeTeamAggregate (at_ alice 101) 0;
   RequestTeamAggregateDecryption (at_ alice 102) 0].

(** Transactions that are not submissions. *)
Definition betweenOps : list Op :=
  [RequestTeamAggregateDecryption (at_ stranger 103) team1;
   RecomputeTeamAggregate (at_ bob 104) team2;
   DecryptTeamAggregate (at_ stranger 105) 0 answer100 validProof].

(** A policy that refuses everyone. *)
Definition denyAll : Z -> Z -> bool := fun _ _ => false.

End PlainMirror.

(** ** Further notions: the log, the member lists, the effect of a call *)

Section LogNotions.

Context {fhe : FHE}.

(** The time of the last [TeamAggregated] event of a team in a log. *)
Definition lastAggregated (evs : list Event) (teamId : Z) : option Z :=
  fold_left
    (fun acc e =>
       match e with
       | TeamAggregated t ts => if decide (t = teamId) then Some ts else acc
       | _ => acc
       end)
    evs None.

(** The lengths of the lists of a table, added up. *)
Definition sumLengths (m : gmap Z (list Z)) : nat :=
  map_fold (fun (_ : Z) (l : list Z) (acc : nat) => (length l + acc)%nat) 0%nat m.

(** The number of member entries over all teams. *)
Definition totalMembers (s : State) : nat := sumLengths (teamMembers s).

Definition sumZ (l : list Z) : Z := fold_right Z.add 0 l.

(** The ciphertexts a recomputation resolves, one per member entry. *)
Definition resolvedOf (teamId : Z) (s : State) : list euint32 :=
  map (fun m => findLatestEncryptedProgress m s) (membersAt s teamId).

(** What a call that does not revert has done: the storage it wrote and
    the one event it emitted, read off the four public functions. *)
Inductive Effect (s s' : State) : Op -> Prop :=
| EffectSubmit ctx o k p t :
    okrCount s + 1 <= MAX_UINT256 ->
    okrCount s' = okrCount s + 1 ->
    encryptedOkrs s' =
      <[okrCount s + 1 :=
          {| id := okrCount s + 1; owner := msg_sender ctx;
             encryptedObjective := o; encryptedKeyResults := k;
             encryptedProgress := p; timestamp := block_timestamp ctx |}]>
        (encryptedOkrs s) ->
    teamAggregates s' = teamAggregates s ->
    teamMembers s' = <[t := membersAt s t ++ [msg_sender ctx]]> (teamMembers s) ->
    requestToOkrId s' = requestToOkrId s ->
    requestToTeamId s' = requestToTeamId s ->
    counterRequest s' = counterRequest s ->
    events s' =
      events s ++ [OKRSubmitted (okrCount s + 1) (msg_sender ctx) (block_timestamp ctx)] ->
    Effect s s' (SubmitEncryptedOKR ctx o k p t)
| EffectRecompute ctx t :
    okrCount s' = okrCount s ->
    encryptedOkrs s' = encryptedOkrs s ->
    teamAggregates s' =
      <[t := {| idHash := t; encryptedSum := fst (aggregateOf t s);
                lastUpdated := block_timestamp ctx |}]> (teamAggregates s) ->
    teamMembers s' = teamMembers s ->
    requestToOkrId s' = requestToOkrId s ->
    requestToTeamId s' = requestToTeamId s ->
    counterRequest s' = counterRequest s ->
    events s' = events s ++ [TeamAggregated t (block_timestamp ctx)] ->
    Effect s s' (RecomputeTeamAggregate ctx t)
| EffectRequest ctx t :
    isInitialized (encryptedSum (aggregateAt s t)) = true ->
    okrCount s' = okrCount s ->
    encryptedOkrs s' = encryptedOkrs s ->
    teamAggregates s' = teamAggregates s ->
    teamMembers s' = teamMembers s ->
    requestToOkrId s' = requestToOkrId s ->
    requestToTeamId s' = <[counterRequest s := t]> (requestToTeamId s) ->
    counterRequest s' = counterRequest s + 1 ->
    events s' = events s ++ [DecryptionRequested (counterRequest s)] ->
    Effect s s' (RequestTeamAggregateDecryption ctx t)
| EffectCallback ctx r c p v :
    idHash (aggregateAt s (teamOfRequest s r)) <> 0 ->
    checkSignatures r c p = true ->
    abiDecodeUint32 c = Some v ->
    okrCount s' = okrCount s ->
    encryptedOkrs s' = encryptedOkrs s ->
    teamAggregates s' = teamAggregates s ->
    teamMembers s' = teamMembers s ->
    requestToOkrId s' = requestToOkrId s ->
    requestToTeamId s' = requestToTeamId s ->
    counterRequest s' = counterRequest s ->
    events s' = events s ++ [AggregateDecrypted (teamOfRequest s r) v] ->
    Effect s s' (DecryptTeamAggregate ctx r c p).

(** The ledger and the log of submissions agree: the ids in use are
    [1 .. okrCount], each record carries its id, and each [OKRSubmitted]
    event names a stored record with its owner and time. *)
Record LedgerInv (s : State) : Prop := {
  li_count : 0 <= okrCount s <= MAX_UINT256;
  li_inside : forall i, 1 <= i <= okrCount s ->
                exists r, encryptedOkrs s !! i = Some r /\ id r = i;
  li_outside : forall i, ~ (1 <= i <= okrCount s) -> encryptedOkrs s !! i = None;
  li_log_ids : omap eventId (events s) = idsFrom 1 (Z.to_nat (okrCount s));
  li_log : forall i o t, OKRSubmitted i o t ∈ events s ->
             exists r, encryptedOkrs s !! i = Some r /\ owner r = o /\ timestamp r = t
}.

(** Every member entry belongs to an address that owns a record, and there
    are as many member entries as records. *)
Record MembersInv (s : State) : Prop := {
  mi_own : forall T m, m ∈ membersAt s T ->
             exists i, 1 <= i <= okrCount s /\ owner (okrAt s i) = m;
  mi_total : Z.of_nat (totalMembers s) = okrCount s
}.

(** The aggregates and the oracle's table against the log. *)
Record OracleInv (s : State) : Prop := {
  oi_updated : forall T,
      lastUpdated <$> (teamAggregates s !! T) = lastAggregated (events s) T;
  oi_decrypted : forall T v, AggregateDecrypted T v ∈ events s ->
      T <> 0 /\ is_Some (teamAggregates s !! T) /\ 0 <= v <= MAX_UINT32
      /\ exists r, requestToTeamId s !! r = Some T;
  oi_okrId : requestToOkrId s = ∅
}.

End LogNotions.

(** ** The form of the creation dialog (frontend) *)

Module ModalCreate.

(** A JavaScript string, as its UTF-16 code units. *)
Definition jsString : Type := list Z.

(** The code units [String.prototype.trim] strips: WhiteSpace and
    LineTerminator of ECMAScript. *)
Definition isWhiteSpace (c : Z) : bool :=
  (c =? 9) || (c =? 10) || (c =? 11) || (c =? 12) || (c =? 13) || (c =? 32)
  || (c =? 160) || (c =? 5760) || ((8192 <=? c) && (c <=? 8202))
  || (c =? 8232) || (c =? 8233) || (c =? 8239) || (c =? 8287)
  || (c =? 12288) || (c =? 65279).

Fixpoint trimStart (s : jsString) : jsString :=
  match s with
  | [] => []
  | c :: rest => if isWhiteSpace c then trimStart rest else s
  end.

Definition trim (s : jsString) : jsString :=
  rev (trimStart (rev (trimStart s))).

(** The state the dialog edits: [newOKRData]. *)
Record OKRData := {
  objective : jsString;
  keyResults : list jsString;
  progress : Z
}.

(** [addKeyResult]: one more, empty, key result at the end. *)
Definition addKeyResult (okrData : OKRData) : OKRData :=
  {| objective := objective okrData;
     keyResults := keyResults okrData ++ [[]];
     progress := progress okrData |}.

(** [removeKeyResult], for the non-negative index the list rendering
    passes: nothing when one key result or none is left, else
    [splice(index, 1)]. *)
Definition removeKeyResult (index : nat) (okrData : OKRData) : OKRData :=
  if (length (keyResults okrData) <=? 1)%nat then okrData
  else
    {| objective := objective okrData;
       keyResults := take index (keyResults okrData)
                     ++ drop (S index) (keyResults okrData);
       progress := progress okrData |}.

(** [handleSubmit]: [true] when [onSubmit] is called, [false] when the
    dialog alerts and returns. *)
Definition handleSubmit (okrData : OKRData) : bool :=
  if bool_decide (objective okrData = [])
     || existsb (fun kr => bool_decide (trim kr = [])) (keyResults okrData)
  then false
  else true.

(** The form as [App] resets it. *)
Definition emptyForm : OKRData :=
  {| objective := []; keyResults := [[]]; progress := 0 |}.

End ModalCreate.

(** ** More runs on the plaintext mirror *)

Module MirrorRuns.

Import PlainMirror.

(** Alice joins team 1, then submits to team 2; Bob joins team 1; both
    teams are aggregated and team 1 is decrypted. *)
Definition mixedOps : list Op :=
  [submitOp (sub alice 100 (HVal 20) team1);
   RecomputeTeamAggregate (at_ bob 101) team1;
   submitOp (sub bob 102 (HVal 60) team1);
   submitOp (sub alice 103 (HVal 80) team2);
   RecomputeTeamAggregate (at_ bob 104) team1;
   RequestTeamAggregateDecryption (at_ stranger 105) team1;
   DecryptTeamAggregate (at_ stranger 106) 0 (word32 x8c) validProof].

Definition sMixed : State := run mixedOps initialState.

(** The state before Alice's submission to team 2. *)
Definition sBeforeCross : State :=
  run [submitOp (sub alice 100 (HVal 20) team1);
       RecomputeTeamAggregate (at_ bob 101) team1;
       submitOp (sub bob 102 (HVal 60) team1)] initialState.

Definition sAfterCross : State :=
  transact (submitOp (sub alice 103 (HVal 80) team2)) sBeforeCross.

(** A team nobody has submitted to. *)
Definition team9 : Z := 9.

(** A proof the fake verifier refuses. *)
Definition badProof : list byte := [x02].

(** Two progress values whose sum passes [2 ^ 32]. *)
Definition bigOps : list Op :=
  [submitOp (sub alice 100 (HVal 4294967295) team1);
   submitOp (sub bob 101 (HVal 2) team1)].

Definition formTwo : ModalCreate.OKRData :=
  {| ModalCreate.objective := [79; 75; 82];
     ModalCreate.keyResults := [[97]; [98; 32]];
     ModalCreate.progress := 10 |}.

End MirrorRuns.

(** * Properties *)

(** ** The latest-record scan *)

Section Scan.

Context {fhe : FHE}.

Lemma scanLatest_hit (s : State) (who : Z) (n : nat) (i : Z) :
  1 <= i <= Z.of_nat n ->
  owner (okrAt s i) = who ->
  (forall j, i < j <= Z.of_nat n -> owner (okrAt s j) <> who) ->
  scanLatest s who n = encryptedProgress (okrAt s i).
Proof.
  induction n as [|k IH]; intros Hi Hown Hlater.
  - lia.
  - cbn [scanLatest].
    destruct (decide (owner (okrAt s (Z.of_nat (S k))) = who)) as [Heq|Hne].
    + destruct (Z.eq_dec i (Z.of_nat (S k))) as [->|Hd]; [reflexivity|].
      exfalso. apply (Hlater (Z.of_nat (S k))); [lia|exact Heq].
    + assert (i <> Z.of_nat (S k)) by (intros ->; contradiction).
      apply IH; [lia|exact Hown|].
      intros j Hj. apply Hlater. lia.
Qed.

Lemma scanLatest_miss (s : State) (who : Z) (n : nat) :
  (forall i, 1 <= i <= Z.of_nat n -> owner (okrAt s i) <> who) ->
  scanLatest s who n = asEuint32 0.
Proof.
  induction n as [|k IH]; intros Hnone.
  - reflexivity.
  - cbn [scanLatest].
    destruct (decide (owner (okrAt s (Z.of_nat (S k))) = who)) as [Heq|Hne].
    + exfalso. apply (Hnone (Z.of_nat (S k))); [lia|exact Heq].
    + apply IH. intros i Hi. apply Hnone. lia.
Qed.

(** The scan reads the ledger and the counter only. *)
Lemma scanLatest_ext (s s' : State) (who : Z) (n : nat) :
  (forall i, 1 <= i <= Z.of_nat n -> okrAt s' i = okrAt s i) ->
  scanLatest s' who n = scanLatest s who n.
Proof.
  induction n as [|k IH]; intros Hsame.
  - reflexivity.
  - cbn [scanLatest]. rewrite Hsame by lia.
    rewrite IH; [reflexivity|]. intros i Hi. apply Hsame. lia.
Qed.

Lemma findLatest_ext (s s' : State) (who : Z) :
  okrCount s' = okrCount s ->
  encryptedOkrs s' = encryptedOkrs s ->
  findLatestEncryptedProgress who s' = findLatestEncryptedProgress who s.
Proof.
  intros Hc Hl. unfold findLatestEncryptedProgress. rewrite Hc.
  apply scanLatest_ext. intros i _. unfold okrAt. now rewrite Hl.
Qed.

(** A successful submission, spelled out. *)
Lemma submit_inv (ctx : Call) (o k p : euint32) (t : Z) (s s' : State) :
  submitEncryptedOKR ctx o k p t s = Ok s' ->
  okrCount s + 1 <= MAX_UINT256
  /\ okrCount s' = okrCount s + 1
  /\ encryptedOkrs s' =
       <[okrCount s + 1 :=
           {| id := okrCount s + 1; owner := msg_sender ctx;
              encryptedObjective := o; encryptedKeyResults := k;
              encryptedProgress := p; timestamp := block_timestamp ctx |}]>
         (encryptedOkrs s)
  /\ teamAggregates s' = teamAggregates s
  /\ teamMembers s' = <[t := membersAt s t ++ [msg_sender ctx]]> (teamMembers s)
  /\ requestToOkrId s' = requestToOkrId s
  /\ requestToTeamId s' = requestToTeamId s
  /\ counterRequest s' = counterRequest s
  /\ events s' =
       events s ++ [OKRSubmitted (okrCount s + 1) (msg_sender ctx) (block_timestamp ctx)].
Proof.
  unfold submitEncryptedOKR.
  destruct (okrCount s + 1 >? MAX_UINT256) eqn:Hof; [discriminate|].
  intros [= <-]. cbn. repeat split. lia.
Qed.

Lemma submit_total (ctx : Call) (o k p : euint32) (t : Z) (s : State) :
  okrCount s + 1 <= MAX_UINT256 ->
  exists s', submitEncryptedOKR ctx o k p t s = Ok s'.
Proof.
  intros Hb. unfold submitEncryptedOKR.
  destruct (okrCount s + 1 >? MAX_UINT256) eqn:Hof; [lia|]. eauto.
Qed.

Lemma submit_revert (ctx : Call) (o k p : euint32) (t : Z) (s : State) (r : RevertReason) :
  submitEncryptedOKR ctx o k p t s = Revert r ->
  r = Panic 17 /\ okrCount s + 1 > MAX_UINT256.
Proof.
  unfold submitEncryptedOKR.
  destruct (okrCount s + 1 >? MAX_UINT256) eqn:Hof; [|discriminate].
  intros [= <-]. split; [reflexivity|lia].
Qed.

(** After a submission the sender's latest record is the new one. *)
Lemma findLatest_after_submit (ctx : Call) (o k p : euint32) (t : Z) (s s' : State) :
  0 <= okrCount s ->
  submitEncryptedOKR ctx o k p t s = Ok s' ->
  findLatestEncryptedProgress (msg_sender ctx) s' = p.
Proof.
  intros Hc Hs. apply submit_inv in Hs as (_ & Hn & Hl & _).
  unfold findLatestEncryptedProgress. rewrite Hn.
  replace (Z.to_nat (okrCount s + 1)) with (S (Z.to_nat (okrCount s))) by lia.
  cbn [scanLatest].
  replace (Z.of_nat (S (Z.to_nat (okrCount s)))) with (okrCount s + 1) by lia.
  assert (Hr : okrAt s' (okrCount s + 1) =
               {| id := okrCount s + 1; owner := msg_sender ctx;
                  encryptedObjective := o; encryptedKeyResults := k;
                  encryptedProgress := p; timestamp := block_timestamp ctx |}).
  { unfold okrAt. rewrite Hl, lookup_insert_eq. reflexivity. }
  rewrite Hr. cbn.
  destruct (decide (msg_sender ctx = msg_sender ctx)); [reflexivity|contradiction].
Qed.

End Scan.

(** ** The ledger under submissions *)

Section Ledger.

Context {fhe : FHE}.

Lemma membersAt_after_submit (ctx : Call) (o k p : euint32) (t : Z) (s s' : State) (T : Z) :
  submitEncryptedOKR ctx o k p t s = Ok s' ->
  membersAt s' T =
    if decide (t = T) then membersAt s T ++ [msg_sender ctx] else membersAt s T.
Proof.
  intros Hs. apply submit_inv in Hs as (_ & _ & _ & _ & Hm & _).
  unfold membersAt at 1. rewrite Hm.
  destruct (decide (t = T)) as [->|Hne].
  - now rewrite lookup_insert_eq.
  - now rewrite lookup_insert_ne.
Qed.

Lemma submittedEvents_ids (first : Z) (subs : list Submission) :
  omap eventId (submittedEvents first subs) = idsFrom first (length subs).
Proof.
  revert first. induction subs as [|x rest IH]; intros first; cbn.
  - reflexivity.
  - now rewrite IH.
Qed.

Lemma idsFrom_lookup (n : nat) : forall (first : Z) (k : nat),
  (k < n)%nat -> idsFrom first n !! k = Some (first + Z.of_nat k).
Proof.
  induction n as [|n IH]; intros first k Hk; [lia|].
  destruct k as [|k]; cbn.
  - f_equal. lia.
  - rewrite IH by lia. f_equal. lia.
Qed.

(** What a run of submissions does to a state whose counter has room. *)
Lemma submitAll_spec (subs : list Submission) : forall s0 : State,
  0 <= okrCount s0 ->
  okrCount s0 + Z.of_nat (length subs) <= MAX_UINT256 ->
  exists s,
    submitAll subs s0 = Ok s
    /\ okrCount s = okrCount s0 + Z.of_nat (length subs)
    /\ (forall (k : nat) x, subs !! k = Some x ->
          encryptedOkrs s !! (okrCount s0 + Z.of_nat k + 1)
          = Some (recordOf (okrCount s0 + Z.of_nat k + 1) x))
    /\ (forall i, i <= okrCount s0 -> encryptedOkrs s !! i = encryptedOkrs s0 !! i)
    /\ (forall T, membersAt s T = membersAt s0 T ++ membership subs T)
    /\ teamAggregates s = teamAggregates s0
    /\ requestToOkrId s = requestToOkrId s0
    /\ requestToTeamId s = requestToTeamId s0
    /\ counterRequest s = counterRequest s0
    /\ events s = events s0 ++ submittedEvents (okrCount s0 + 1) subs.
Proof.
  induction subs as [|x rest IH]; intros s0 Hc Hb.
  - exists s0. cbn. repeat split; try reflexivity.
    + lia.
    + intros k x Hk. now rewrite lookup_nil in Hk.
    + intros T. now rewrite app_nil_r.
    + now rewrite app_nil_r.
  - cbn [length] in Hb.
    destruct (submit_total (sub_ctx x) (sub_objective x) (sub_keyResults x)
                (sub_progress x) (sub_team x) s0) as [s1 Hs1]; [lia|].
    pose proof (fun T => membersAt_after_submit _ _ _ _ _ _ _ T Hs1) as Hmem.
    pose proof Hs1 as Hinv.
    apply submit_inv in Hinv as (_ & Hn & Hl & Ha & _ & Ho & Hr & Hq & He).
    destruct (IH s1) as (s & Hrun & Hcnt & Hrec & Hold & Hm & Ha' & Ho' & Hr' & Hq' & He');
      [lia|lia|].
    exists s. cbn [submitAll]. unfold submitOne. rewrite Hs1.
    split; [exact Hrun|].
    split; [cbn [length]; lia|].
    split.
    { intros [|k] y Hk.
      - cbn in Hk. injection Hk as <-.
        replace (okrCount s0 + Z.of_nat 0 + 1) with (okrCount s0 + 1) by lia.
        rewrite Hold by lia. rewrite Hl, lookup_insert_eq. reflexivity.
      - cbn in Hk. specialize (Hrec k y Hk).
        replace (okrCount s0 + Z.of_nat (S k) + 1)
          with (okrCount s1 + Z.of_nat k + 1) by lia.
        exact Hrec. }
    split.
    { intros i Hi. rewrite Hold by lia. rewrite Hl.
      apply lookup_insert_ne. lia. }
    split.
    { intros T. rewrite Hm, Hmem. cbn [membership]. unfold sub_sender.
      destruct (decide (sub_team x = T)); [|reflexivity].
      now rewrite <- app_assoc. }
    split; [congruence|]. split; [congruence|]. split; [congruence|].
    split; [congruence|].
    rewrite He', He, Hn. cbn [submittedEvents]. unfold sub_sender.
    now rewrite <- app_assoc.
Qed.

(** No transaction rewrites or removes a record already in the ledger, and
    the counter never goes down. *)
Lemma transact_keeps_records (op : Op) (s : State) :
  okrCount s <= okrCount (transact op s)
  /\ forall i, i <= okrCount s ->
       encryptedOkrs (transact op s) !! i = encryptedOkrs s !! i.
Proof.
  unfold transact. destruct (call op s) as [s'|r] eqn:Hcall.
  2: { split; [lia|reflexivity]. }
  destruct op as [ctx o k p t|ctx t|ctx t|ctx r c p]; cbn in Hcall.
  - apply submit_inv in Hcall as (_ & Hn & Hl & _).
    split; [lia|]. intros i Hi. rewrite Hl. apply lookup_insert_ne. lia.
  - injection Hcall as <-. cbn. split; [lia|reflexivity].
  - unfold requestTeamAggregateDecryption, onlyTeamMember in Hcall.
    destruct (isInitialized _); [|discriminate].
    injection Hcall as <-. cbn. split; [lia|reflexivity].
  - unfold decryptTeamAggregate in Hcall.
    destruct (decide _); [discriminate|].
    destruct (negb _); [discriminate|].
    destruct (abiDecodeUint32 c); [|discriminate].
    injection Hcall as <-. cbn. split; [lia|reflexivity].
Qed.

End Ledger.

(** C6. Submissions made to the freshly deployed contract receive the ids
    1, 2, 3, ... in submission order: all of them succeed (while the
    [uint256] counter has room), the k-th one (from 0) is stored under id
    k + 1 with its own fields, nothing is stored outside [1 .. n], and the
    ids in the [OKRSubmitted] events are 1 .. n in order, each greater
    than all before it.  No transaction of the contract ever changes or
    removes a record already stored. *)
Theorem C6_ids_sequential `{fhe : FHE} :
  (forall subs : list Submission,
     Z.of_nat (length subs) <= MAX_UINT256 ->
     exists s,
       submitAll subs initialState = Ok s
       /\ okrCount s = Z.of_nat (length subs)
       /\ (forall (k : nat) x, subs !! k = Some x ->
             encryptedOkrs s !! (Z.of_nat k + 1) = Some (recordOf (Z.of_nat k + 1) x))
       /\ (forall i, i <= 0 -> encryptedOkrs s !! i = None)
       /\ omap eventId (events s) = idsFrom 1 (length subs)
       /\ (forall (a b : nat) i j,
             (a < b)%nat ->
             omap eventId (events s) !! a = Some i ->
             omap eventId (events s) !! b = Some j ->
             1 <= i < j))
  /\ (forall (op : Op) (s : State),
        okrCount s <= okrCount (transact op s)
        /\ forall i, i <= okrCount s ->
             encryptedOkrs (transact op s) !! i = encryptedOkrs s !! i).
Proof.
  split; [|apply transact_keeps_records].
  intros subs Hlen.
  destruct (submitAll_spec subs initialState) as
    (s & Hrun & Hcnt & Hrec & Hold & _ & _ & _ & _ & _ & He); cbn; [lia|lia|].
  cbn in Hcnt, Hrec, Hold, He.
  assert (Hids : omap eventId (events s) = idsFrom 1 (length subs)).
  { rewrite He. apply submittedEvents_ids. }
  assert (Hlen' : forall n z, length (idsFrom z n) = n).
  { induction n as [|n IHn]; intros z; cbn; [reflexivity|]. now rewrite IHn. }
  exists s.
  split; [exact Hrun|]. split; [exact Hcnt|]. split; [exact Hrec|].
  split; [intros i Hi; rewrite Hold by lia; apply lookup_empty|].
  split; [exact Hids|].
  intros a b i j Hab Hi Hj. rewrite Hids in Hi, Hj.
  pose proof (lookup_lt_Some _ _ _ Hi) as Ha.
  pose proof (lookup_lt_Some _ _ _ Hj) as Hb.
  rewrite Hlen' in Ha, Hb.
  rewrite idsFrom_lookup in Hi by assumption.
  rewrite idsFrom_lookup in Hj by assumption.
  injection Hi as <-. injection Hj as <-. lia.
Qed.

(** ** The scan against the sequence of submissions *)

Section ScanVsSubmissions.

Context {fhe : FHE}.

Lemma latestSubmission_snoc (subs : list Submission) (x : Submission) (who : Z) :
  latestSubmission (subs ++ [x]) who =
    if decide (sub_sender x = who) then Some x else latestSubmission subs who.
Proof.
  induction subs as [|y rest IH]; cbn.
  - destruct (decide (sub_sender x = who)); reflexivity.
  - rewrite IH. destruct (decide (sub_sender x = who)); reflexivity.
Qed.

Lemma scanLatest_prefix (subs : list Submission) (s : State) (who : Z) :
  (forall (k : nat) x, subs !! k = Some x ->
     encryptedOkrs s !! (Z.of_nat k + 1) = Some (recordOf (Z.of_nat k + 1) x)) ->
  forall n : nat, (n <= length subs)%nat ->
    scanLatest s who n = resolved (take n subs) who.
Proof.
  intros Hrec. induction n as [|k IH]; intros Hn.
  - reflexivity.
  - destruct (lookup_lt_is_Some_2 subs k) as [x Hx]; [lia|].
    rewrite (take_S_r _ _ _ Hx). unfold resolved.
    rewrite latestSubmission_snoc. cbn [scanLatest].
    assert (Hr : okrAt s (Z.of_nat (S k)) = recordOf (Z.of_nat k + 1) x).
    { unfold okrAt. replace (Z.of_nat (S k)) with (Z.of_nat k + 1) by lia.
      now rewrite (Hrec k x Hx). }
    rewrite Hr. cbn [owner recordOf encryptedProgress].
    destruct (decide (sub_sender x = who)); [reflexivity|].
    rewrite IH by lia. reflexivity.
Qed.

End ScanVsSubmissions.

(** ** The aggregation loop *)

Section Aggregation.

Context {fhe : FHE}.

(** The loop adds exactly the resolved ciphertexts that are initialized. *)
Lemma aggregateLoop_calls (s : State) (members : list Z) :
  forall acc calls,
    map callRhs (snd (aggregateLoop s members acc calls)) =
      map callRhs calls
      ++ List.filter isInitialized
           (map (fun m => findLatestEncryptedProgress m s) members).
Proof.
  induction members as [|m rest IH]; intros acc calls; cbn.
  - now rewrite app_nil_r.
  - destruct (isInitialized (findLatestEncryptedProgress m s)) eqn:Hi.
    + rewrite IH, map_app. cbn. now rewrite <- app_assoc.
    + apply IH.
Qed.

(** The accumulator does not depend on the calls recorded on the side. *)
Lemma aggregateLoop_fst (s : State) (members : list Z) :
  forall acc calls calls',
    fst (aggregateLoop s members acc calls) = fst (aggregateLoop s members acc calls').
Proof.
  induction members as [|m rest IH]; intros acc calls calls'; cbn.
  - reflexivity.
  - destruct (isInitialized (findLatestEncryptedProgress m s)); apply IH.
Qed.

(** The loop reads the ledger, the counter and the member list only. *)
Lemma aggregateLoop_ext (s s' : State) (members : list Z) :
  okrCount s' = okrCount s ->
  encryptedOkrs s' = encryptedOkrs s ->
  forall acc calls,
    aggregateLoop s' members acc calls = aggregateLoop s members acc calls.
Proof.
  intros Hc Hl. induction members as [|m rest IH]; intros acc calls; cbn.
  - reflexivity.
  - rewrite (findLatest_ext s s' m Hc Hl).
    destruct (isInitialized (findLatestEncryptedProgress m s)); apply IH.
Qed.

Lemma aggregateOf_ext (s s' : State) (teamId : Z) :
  okrCount s' = okrCount s ->
  encryptedOkrs s' = encryptedOkrs s ->
  teamMembers s' = teamMembers s ->
  aggregateOf teamId s' = aggregateOf teamId s.
Proof.
  intros Hc Hl Hm. unfold aggregateOf, membersAt. rewrite Hm.
  now apply aggregateLoop_ext.
Qed.

Lemma aggregateLoop_initialized `{!FHEHandles fhe} (s : State) (members : list Z) :
  forall acc calls,
    isInitialized acc = true ->
    isInitialized (fst (aggregateLoop s members acc calls)) = true.
Proof.
  induction members as [|m rest IH]; intros acc calls Hacc; cbn.
  - exact Hacc.
  - destruct (isInitialized (findLatestEncryptedProgress m s)).
    + apply IH. apply add_initialized.
    + now apply IH.
Qed.

End Aggregation.

Section AggregationMirror.

Context {fhe : FHE} {mir : Mirror fhe} {laws : MirrorLaws fhe mir}.

Lemma plainAdd_zero (x : Z) : 0 <= x <= MAX_UINT32 -> plainAdd x 0 = x.
Proof.
  unfold plainAdd, MAX_UINT32. intros Hx. rewrite Z.add_0_r.
  apply Z.mod_small. lia.
Qed.

(** Decrypting the accumulator gives the running plaintext sum, whether an
    entry was added or passed over as uninitialized. *)
Lemma aggregateLoop_decrypt (s : State) (members : list Z) :
  forall acc calls,
    decrypt (fst (aggregateLoop s members acc calls)) =
      fold_left (fun a who => plainAdd a (decrypt (findLatestEncryptedProgress who s)))
        members (decrypt acc).
Proof.
  induction members as [|m rest IH]; intros acc calls; cbn.
  - reflexivity.
  - destruct (isInitialized (findLatestEncryptedProgress m s)) eqn:Hi.
    + rewrite IH, decrypt_add. reflexivity.
    + rewrite IH, (decrypt_uninitialized _ Hi).
      rewrite plainAdd_zero by apply decrypt_range. reflexivity.
Qed.

Lemma fold_left_pointwise (f g : Z -> Z -> Z) (l : list Z) :
  (forall a x, f a x = g a x) ->
  forall a, fold_left f l a = fold_left g l a.
Proof.
  intros Hfg. induction l as [|x rest IH]; intros a; cbn.
  - reflexivity.
  - rewrite Hfg. apply IH.
Qed.

Lemma decrypt_resolved (subs : list Submission) (who : Z) :
  decrypt (resolved subs who) = latestPlain subs who.
Proof.
  unfold resolved, latestPlain. destruct (latestSubmission subs who); [reflexivity|].
  rewrite decrypt_asEuint32. reflexivity.
Qed.

End AggregationMirror.

(** C1. For every team and every finite sequence of submissions to the
    freshly deployed contract (within the [uint256] counter), the
    submissions and the recomputation succeed, the team's member list is
    the spec's membership list, and the stored [encryptedSum] decrypts to
    the plaintext sum over that list, entry by entry and repeats included,
    of the owner's latest submitted progress (zero without a record),
    added as the mirror of [FHE.add] adds. *)
Theorem C1_aggregation_correct `{fhe : FHE} `{mir : !Mirror fhe}
  (laws : MirrorLaws fhe mir)
  (subs : list Submission) (teamId : Z) (ctx : Call) :
  Z.of_nat (length subs) <= MAX_UINT256 ->
  exists s s' agg,
    submitAll subs initialState = Ok s
    /\ recomputeTeamAggregate ctx teamId s = Ok s'
    /\ membersAt s teamId = membership subs teamId
    /\ teamAggregates s' !! teamId = Some agg
    /\ decrypt (encryptedSum agg) = plaintextSum subs teamId.
Proof.
  intros Hlen.
  destruct (submitAll_spec subs initialState) as
    (s & Hrun & Hcnt & Hrec & _ & Hm & _); cbn; [lia|lia|].
  cbn in Hcnt, Hrec.
  assert (Hmem : membersAt s teamId = membership subs teamId).
  { rewrite Hm. reflexivity. }
  assert (Hfind : forall who, findLatestEncryptedProgress who s = resolved subs who).
  { intros who. unfold findLatestEncryptedProgress.
    replace (Z.to_nat (okrCount s)) with (length subs) by lia.
    rewrite (scanLatest_prefix subs s who Hrec) by lia.
    now rewrite take_ge by lia. }
  eexists s, _, _. split; [exact Hrun|]. split; [reflexivity|].
  split; [exact Hmem|]. split; [cbn; apply lookup_insert_eq|].
  cbn. unfold aggregateOf. rewrite aggregateLoop_decrypt, Hmem.
  rewrite decrypt_asEuint32. unfold plaintextSum.
  change (0 mod 2 ^ 32) with 0.
  apply fold_left_pointwise. intros a who.
  now rewrite Hfind, decrypt_resolved.
Qed.

(** ** What each transaction does when it succeeds *)

Section Transactions.

Context {fhe : FHE}.

Lemma request_inv (ctx : Call) (t : Z) (s s' : State) :
  requestTeamAggregateDecryption ctx t s = Ok s' ->
  isInitialized (encryptedSum (aggregateAt s t)) = true
  /\ okrCount s' = okrCount s
  /\ encryptedOkrs s' = encryptedOkrs s
  /\ teamAggregates s' = teamAggregates s
  /\ teamMembers s' = teamMembers s
  /\ requestToOkrId s' = requestToOkrId s
  /\ requestToTeamId s' = <[counterRequest s := t]> (requestToTeamId s)
  /\ counterRequest s' = counterRequest s + 1
  /\ events s' = events s ++ [DecryptionRequested (counterRequest s)].
Proof.
  unfold requestTeamAggregateDecryption, onlyTeamMember.
  destruct (isInitialized (encryptedSum (aggregateAt s t))) eqn:Hi; [|discriminate].
  intros [= <-]. cbn. repeat split.
Qed.

Lemma request_revert (ctx : Call) (t : Z) (s : State) (r : RevertReason) :
  requestTeamAggregateDecryption ctx t s = Revert r ->
  r = RequireFailed "No aggregate"
  /\ isInitialized (encryptedSum (aggregateAt s t)) = false.
Proof.
  unfold requestTeamAggregateDecryption, onlyTeamMember.
  destruct (isInitialized (encryptedSum (aggregateAt s t))) eqn:Hi; [discriminate|].
  intros [= <-]. split; reflexivity.
Qed.

Lemma callback_inv (ctx : Call) (r : Z) (c p : list byte) (s s' : State) :
  decryptTeamAggregate ctx r c p s = Ok s' ->
  idHash (aggregateAt s (teamOfRequest s r)) <> 0
  /\ checkSignatures r c p = true
  /\ exists v,
       abiDecodeUint32 c = Some v
       /\ okrCount s' = okrCount s
       /\ encryptedOkrs s' = encryptedOkrs s
       /\ teamAggregates s' = teamAggregates s
       /\ teamMembers s' = teamMembers s
       /\ requestToOkrId s' = requestToOkrId s
       /\ requestToTeamId s' = requestToTeamId s
       /\ counterRequest s' = counterRequest s
       /\ events s' = events s ++ [AggregateDecrypted (teamOfRequest s r) v].
Proof.
  unfold decryptTeamAggregate.
  destruct (decide (idHash (aggregateAt s (teamOfRequest s r)) = 0)) as [|Hid];
    [discriminate|].
  destruct (checkSignatures r c p) eqn:Hsig; cbn [negb]; [|discriminate].
  destruct (abiDecodeUint32 c) as [v|] eqn:Hdec; [|discriminate].
  intros [= <-]. split; [exact Hid|]. split; [reflexivity|].
  exists v. cbn. repeat split.
Qed.


(** A recomputation never reverts; it writes the team's aggregate and logs. *)
Lemma recompute_ok (ctx : Call) (t : Z) (s : State) :
  exists s',
    recomputeTeamAggregate ctx t s = Ok s'
    /\ okrCount s' = okrCount s
    /\ encryptedOkrs s' = encryptedOkrs s
    /\ teamAggregates s' =
         <[t := {| idHash := t; encryptedSum := fst (aggregateOf t s);
                   lastUpdated := block_timestamp ctx |}]> (teamAggregates s)
    /\ teamMembers s' = teamMembers s
    /\ requestToOkrId s' = requestToOkrId s
    /\ requestToTeamId s' = requestToTeamId s
    /\ counterRequest s' = counterRequest s
    /\ events s' = events s ++ [TeamAggregated t (block_timestamp ctx)].
Proof.
  eexists. split; [reflexivity|]. cbn. repeat split.
Qed.

Lemma run_app (ops ops' : list Op) (s : State) :
  run (ops ++ ops') s = run ops' (run ops s).
Proof. unfold run. apply fold_left_app. Qed.

Lemma run_snoc (ops : list Op) (op : Op) (s : State) :
  run (ops ++ [op]) s = transact op (run ops s).
Proof. now rewrite run_app. Qed.

Lemma transact_other_keeps_inputs (op : Op) (s : State) :
  isSubmission op = false ->
  okrCount (transact op s) = okrCount s
  /\ encryptedOkrs (transact op s) = encryptedOkrs s
  /\ teamMembers (transact op s) = teamMembers s.
Proof.
  intros Hop. unfold transact.
  destruct (call op s) as [s'|r] eqn:Hcall; [|repeat split].
  destruct op as [ctx o k p t|ctx t|ctx t|ctx r c p]; cbn in Hcall, Hop.
  - discriminate.
  - injection Hcall as <-. repeat split.
  - apply request_inv in Hcall as (_ & H1 & H2 & _ & H3 & _). auto.
  - apply callback_inv in Hcall as (_ & _ & v & _ & H1 & H2 & _ & H3 & _). auto.
Qed.

Lemma run_others_keeps_inputs (ops : list Op) : forall s : State,
  forallb (fun op => negb (isSubmission op)) ops = true ->
  okrCount (run ops s) = okrCount s
  /\ encryptedOkrs (run ops s) = encryptedOkrs s
  /\ teamMembers (run ops s) = teamMembers s.
Proof.
  induction ops as [|op rest IH]; intros s Hall; cbn in *.
  - repeat split.
  - apply andb_prop in Hall as [Hop Hrest].
    apply negb_true_iff in Hop.
    destruct (transact_other_keeps_inputs op s Hop) as (H1 & H2 & H3).
    destruct (IH (transact op s) Hrest) as (H1' & H2' & H3').
    unfold run in *. repeat split; congruence.
Qed.

End Transactions.

(** C7. A recomputation for a team, then any transactions that are not
    submissions (none, in the consecutive case), then a second
    recomputation for the same team: both recomputations succeed and the
    second stores the same [encryptedSum] and [idHash] as the first; of the
    stored aggregate only [lastUpdated], set to the time of the call, may
    differ.  The ledger, the counter and the member lists are as the first
    recomputation found them. *)
Theorem C7_recompute_idempotent `{fhe : FHE}
  (ctx1 ctx2 : Call) (teamId : Z) (s : State) (ops : list Op) :
  forallb (fun op => negb (isSubmission op)) ops = true ->
  exists s1 s2 a1 a2,
    recomputeTeamAggregate ctx1 teamId s = Ok s1
    /\ recomputeTeamAggregate ctx2 teamId (run ops s1) = Ok s2
    /\ teamAggregates s1 !! teamId = Some a1
    /\ teamAggregates s2 !! teamId = Some a2
    /\ encryptedSum a2 = encryptedSum a1
    /\ idHash a2 = idHash a1
    /\ lastUpdated a1 = block_timestamp ctx1
    /\ lastUpdated a2 = block_timestamp ctx2
    /\ okrCount s2 = okrCount s
    /\ encryptedOkrs s2 = encryptedOkrs s
    /\ teamMembers s2 = teamMembers s.
Proof.
  intros Hops.
  destruct (recompute_ok ctx1 teamId s) as (s1 & Hr1 & Hc1 & Hl1 & Ha1 & Hm1 & _).
  destruct (run_others_keeps_inputs ops s1 Hops) as (Hc & Hl & Hm).
  destruct (recompute_ok ctx2 teamId (run ops s1)) as (s2 & Hr2 & Hc2 & Hl2 & Ha2 & Hm2 & _).
  assert (Hsame : aggregateOf teamId (run ops s1) = aggregateOf teamId s).
  { apply aggregateOf_ext; congruence. }
  eexists s1, s2, _, _.
  split; [exact Hr1|]. split; [exact Hr2|].
  split; [rewrite Ha1; apply lookup_insert_eq|].
  split; [rewrite Ha2; apply lookup_insert_eq|].
  cbn. rewrite Hsame. repeat split; congruence.
Qed.

(** ** Invariants of the reachable states *)

Section Invariants.

Context {fhe : FHE}.

Lemma Inv_initial : Inv initialState.
Proof.
  split; cbn.
  - intros T a H. now rewrite lookup_empty in H.
  - intros r [t H]. now rewrite lookup_empty in H.
  - intros r H. now apply not_elem_of_nil in H.
  - lia.
  - intros v H. now apply not_elem_of_nil in H.
  - intros r [t H]. now rewrite lookup_empty in H.
Qed.

(** The guard of the callback reads the team's own id or zero. *)
Lemma idHash_aggregateAt (s : State) (T : Z) :
  Inv s ->
  idHash (aggregateAt s T) = T
  \/ (teamAggregates s !! T = None /\ idHash (aggregateAt s T) = 0).
Proof.
  intros HI. unfold aggregateAt.
  destruct (teamAggregates s !! T) as [a|] eqn:Ha; cbn.
  - left. now apply (inv_idHash s HI).
  - right. split; reflexivity.
Qed.

Lemma idHash_team0 (s : State) : Inv s -> idHash (aggregateAt s 0) = 0.
Proof.
  intros HI. destruct (idHash_aggregateAt s 0 HI) as [H|[_ H]]; exact H.
Qed.

Lemma elem_of_snoc (l : list Event) (e e' : Event) :
  e ∈ l ++ [e'] -> e ∈ l \/ e = e'.
Proof.
  intros H. apply elem_of_app in H as [H|H]; [now left|].
  right. now apply list_elem_of_singleton in H.
Qed.

Lemma Inv_transact (op : Op) (s : State) : Inv s -> Inv (transact op s).
Proof.
  intros HI. unfold transact.
  destruct (call op s) as [s'|r] eqn:Hcall; [|exact HI].
  destruct HI as [Hid Hreq Hev Hcnt H0 Hlog].
  destruct op as [ctx o k p t|ctx t|ctx t|ctx r c p]; cbn in Hcall.
  - apply submit_inv in Hcall as (_ & _ & _ & Ha & _ & _ & Hr & Hq & He).
    split; rewrite ?Ha, ?Hr, ?Hq, ?He; try assumption.
    + intros r H. apply elem_of_snoc in H as [H|H]; [auto|discriminate].
    + intros v H. apply elem_of_snoc in H as [H|H]; [|discriminate].
      now apply (H0 v).
    + intros r H. apply elem_of_app. left. now apply Hlog.
  - injection Hcall as <-. split; cbn; try assumption.
    + intros T a. destruct (decide (t = T)) as [->|Hne].
      * rewrite lookup_insert_eq. now intros [= <-].
      * rewrite lookup_insert_ne by assumption. apply Hid.
    + intros r H. apply elem_of_snoc in H as [H|H]; [auto|discriminate].
    + intros v H. apply elem_of_snoc in H as [H|H]; [|discriminate].
      now apply (H0 v).
    + intros r H. apply elem_of_app. left. now apply Hlog.
  - apply request_inv in Hcall as (_ & _ & _ & Ha & _ & _ & Hr & Hq & He).
    split; rewrite ?Ha, ?Hr, ?Hq, ?He; try assumption; try lia.
    + intros r. destruct (decide (counterRequest s = r)) as [<-|Hne].
      * intros _. lia.
      * rewrite lookup_insert_ne by assumption. intros H.
        specialize (Hreq r H). lia.
    + intros r H. apply elem_of_snoc in H as [H|H].
      * specialize (Hev r H). lia.
      * injection H as ->. lia.
    + intros v H. apply elem_of_snoc in H as [H|H]; [|discriminate].
      now apply (H0 v).
    + intros r H. apply elem_of_app.
      destruct (decide (counterRequest s = r)) as [<-|Hne].
      * right. apply list_elem_of_singleton. reflexivity.
      * rewrite lookup_insert_ne in H by assumption. left. now apply Hlog.
  - apply callback_inv in Hcall as (Hguard & _ & v & _ & _ & _ & Ha & _ & _ & Hr & Hq & He).
    split; rewrite ?Ha, ?Hr, ?Hq, ?He; try assumption.
    + intros r' H. apply elem_of_snoc in H as [H|H]; [auto|discriminate].
    + intros v' H. apply elem_of_snoc in H as [H|H]; [now apply (H0 v')|].
      injection H as Ht _. apply Hguard. rewrite <- Ht.
      apply idHash_team0. now split.
    + intros r' H. apply elem_of_app. left. now apply Hlog.
Qed.

Lemma Inv_run (ops : list Op) : forall s, Inv s -> Inv (run ops s).
Proof.
  induction ops as [|op rest IH]; intros s HI; cbn.
  - exact HI.
  - apply IH. now apply Inv_transact.
Qed.

Lemma Inv_reachable (ops : list Op) : Inv (run ops initialState).
Proof. apply Inv_run, Inv_initial. Qed.

(** The table of requests only grows: an entry is never overwritten. *)
Lemma transact_keeps_request (op : Op) (s : State) (r T : Z) :
  Inv s ->
  requestToTeamId s !! r = Some T ->
  requestToTeamId (transact op s) !! r = Some T.
Proof.
  intros HI Hr. unfold transact.
  destruct (call op s) as [s'|e] eqn:Hcall; [|exact Hr].
  destruct op as [ctx o k p t|ctx t|ctx t|ctx r' c p]; cbn in Hcall.
  - apply submit_inv in Hcall as (_ & _ & _ & _ & _ & _ & Hq & _). now rewrite Hq.
  - injection Hcall as <-. exact Hr.
  - apply request_inv in Hcall as (_ & _ & _ & _ & _ & _ & Hq & _). rewrite Hq.
    rewrite lookup_insert_ne; [exact Hr|].
    pose proof (inv_requests s HI r (mk_is_Some _ _ Hr)). lia.
  - apply callback_inv in Hcall as (_ & _ & v & _ & _ & _ & _ & _ & _ & Hq & _).
    now rewrite Hq.
Qed.

Lemma run_keeps_request (ops : list Op) : forall (s : State) (r T : Z),
  Inv s ->
  requestToTeamId s !! r = Some T ->
  requestToTeamId (run ops s) !! r = Some T.
Proof.
  induction ops as [|op rest IH]; intros s r T HI Hr; cbn.
  - exact Hr.
  - apply IH; [now apply Inv_transact|now apply transact_keeps_request].
Qed.

Lemma aggregatesInitialized_transact `{!FHEHandles fhe} (op : Op) (s : State) :
  aggregatesInitialized s -> aggregatesInitialized (transact op s).
Proof.
  intros HI. unfold transact.
  destruct (call op s) as [s'|r] eqn:Hcall; [|exact HI].
  destruct op as [ctx o k p t|ctx t|ctx t|ctx r c p]; cbn in Hcall.
  - apply submit_inv in Hcall as (_ & _ & _ & Ha & _).
    unfold aggregatesInitialized. now rewrite Ha.
  - injection Hcall as <-. intros T a. cbn.
    destruct (decide (t = T)) as [->|Hne].
    + rewrite lookup_insert_eq. intros [= <-]. cbn.
      apply aggregateLoop_initialized, asEuint32_initialized.
    + rewrite lookup_insert_ne by assumption. apply HI.
  - apply request_inv in Hcall as (_ & _ & _ & Ha & _).
    unfold aggregatesInitialized. now rewrite Ha.
  - apply callback_inv in Hcall as (_ & _ & v & _ & _ & _ & Ha & _).
    unfold aggregatesInitialized. now rewrite Ha.
Qed.

Lemma aggregatesInitialized_reachable `{!FHEHandles fhe} (ops : list Op) :
  aggregatesInitialized (run ops initialState).
Proof.
  assert (H : forall s, aggregatesInitialized s -> aggregatesInitialized (run ops s)).
  { induction ops as [|op rest IH]; intros s Hs; cbn; [exact Hs|].
    apply IH. now apply aggregatesInitialized_transact. }
  apply H. intros T a Ha. cbn in Ha. now rewrite lookup_empty in Ha.
Qed.

End Invariants.

(** C8. In every reachable state, with an FHE library whose returned
    handles are initialized: while no aggregate has been computed for the
    team, [requestTeamAggregateDecryption] reverts with "No aggregate" (the
    spec's EmptyAggregate) and the transaction leaves the state as it was;
    once one has been computed, the call succeeds for any caller, takes a
    request id that no earlier request has, records it against the team,
    and emits [DecryptionRequested] with it, changing nothing else. *)
Theorem C8_request_decryption `{fhe : FHE} (handles : FHEHandles fhe)
  (ops : list Op) (ctx : Call) (teamId : Z) :
  let s := run ops initialState in
  (teamAggregates s !! teamId = None ->
     call (RequestTeamAggregateDecryption ctx teamId) s
       = Revert (RequireFailed "No aggregate")
     /\ transact (RequestTeamAggregateDecryption ctx teamId) s = s)
  /\ (is_Some (teamAggregates s !! teamId) ->
      exists s',
        call (RequestTeamAggregateDecryption ctx teamId) s = Ok s'
        /\ requestToTeamId s !! counterRequest s = None
        /\ (DecryptionRequested (counterRequest s) ∉ events s)
        /\ requestToTeamId s' = <[counterRequest s := teamId]> (requestToTeamId s)
        /\ events s' = events s ++ [DecryptionRequested (counterRequest s)]
        /\ counterRequest s' = counterRequest s + 1
        /\ okrCount s' = okrCount s
        /\ encryptedOkrs s' = encryptedOkrs s
        /\ teamAggregates s' = teamAggregates s
        /\ teamMembers s' = teamMembers s).
Proof.
  intros s. pose proof (Inv_reachable ops) as HI. fold s in HI.
  pose proof (aggregatesInitialized_reachable ops) as HA. fold s in HA.
  split.
  - intros Hnone.
    assert (Hcall : call (RequestTeamAggregateDecryption ctx teamId) s
                    = Revert (RequireFailed "No aggregate")).
    { cbn. unfold requestTeamAggregateDecryption, onlyTeamMember, aggregateAt.
      rewrite Hnone. cbn. now rewrite null_uninitialized. }
    split; [exact Hcall|]. unfold transact. now rewrite Hcall.
  - intros [a Ha].
    assert (Hinit : isInitialized (encryptedSum (aggregateAt s teamId)) = true).
    { unfold aggregateAt. rewrite Ha. cbn. now apply (HA teamId). }
    destruct (requestTeamAggregateDecryption ctx teamId s) as [s'|r] eqn:Hcall.
    + exists s'. split; [exact Hcall|].
      apply request_inv in Hcall as (_ & H1 & H2 & H3 & H4 & _ & H5 & H6 & H7).
      split.
      { destruct (requestToTeamId s !! counterRequest s) eqn:Hl; [|reflexivity].
        pose proof (inv_requests s HI _ (mk_is_Some _ _ Hl)). lia. }
      split.
      { intros Hin. pose proof (inv_requested s HI _ Hin). lia. }
      repeat split; assumption.
    + apply request_revert in Hcall as [_ Hf]. congruence.
Qed.

(** C9. In every reachable state, a callback whose request id was never
    issued by [requestTeamAggregateDecryption] (it is not in the table of
    requests, or, which says no less, no [DecryptionRequested] event carries
    it) reverts at the guard, with "Invalid team" (the spec's
    UnknownRequest), whatever the cleartext and the proof: no event is
    emitted and the state stays as it was. *)
Theorem C9_unknown_request `{fhe : FHE}
  (ops : list Op) (ctx : Call) (requestId : Z) (cleartexts proof : list byte) :
  let s := run ops initialState in
  requestToTeamId s !! requestId = None
  \/ DecryptionRequested requestId ∉ events s ->
  call (DecryptTeamAggregate ctx requestId cleartexts proof) s
    = Revert (RequireFailed "Invalid team")
  /\ transact (DecryptTeamAggregate ctx requestId cleartexts proof) s = s.
Proof.
  intros s Hnever. pose proof (Inv_reachable ops) as HI. fold s in HI.
  assert (Hnone : requestToTeamId s !! requestId = None).
  { destruct Hnever as [H|H]; [exact H|].
    destruct (requestToTeamId s !! requestId) as [t|] eqn:Hl; [|reflexivity].
    exfalso. apply H. apply (inv_logged s HI). rewrite Hl. eauto. }
  assert (Hcall : call (DecryptTeamAggregate ctx requestId cleartexts proof) s
                  = Revert (RequireFailed "Invalid team")).
  { cbn. unfold decryptTeamAggregate, teamOfRequest. rewrite Hnone. cbn.
    destruct (decide (idHash (aggregateAt s 0) = 0)) as [|Hne]; [reflexivity|].
    exfalso. apply Hne. now apply idHash_team0. }
  split; [exact Hcall|]. unfold transact. now rewrite Hcall.
Qed.

(** C10. For the all-zero team id, in every reachable state and with an
    FHE library whose returned handles are initialized: after a
    recomputation for team 0 a decryption request succeeds and is recorded
    against team 0; but a callback for a request recorded against team 0
    reverts at the guard with "Invalid team", whatever the cleartext and
    the proof, now and after any further transactions, since the stored
    [idHash] is the team id, zero; and no [AggregateDecrypted] event for
    team 0 is ever in the log. *)
Theorem C10_zero_team_unfulfillable `{fhe : FHE} (handles : FHEHandles fhe)
  (ops : list Op) :
  let s := run ops initialState in
  (forall ctx ctx',
     exists s1 s2,
       recomputeTeamAggregate ctx 0 s = Ok s1
       /\ idHash (aggregateAt s1 0) = 0
       /\ requestTeamAggregateDecryption ctx' 0 s1 = Ok s2
       /\ requestToTeamId s2 !! counterRequest s1 = Some 0
       /\ (DecryptionRequested (counterRequest s1) ∈ events s2))
  /\ (forall requestId, requestToTeamId s !! requestId = Some 0 ->
        forall (later : list Op) ctx cleartexts proof,
          call (DecryptTeamAggregate ctx requestId cleartexts proof) (run later s)
            = Revert (RequireFailed "Invalid team")
          /\ transact (DecryptTeamAggregate ctx requestId cleartexts proof) (run later s)
             = run later s)
  /\ (forall (later : list Op) v, AggregateDecrypted 0 v ∉ events (run later s)).
Proof.
  intros s. pose proof (Inv_reachable ops) as HI. fold s in HI.
  split; [|split].
  - intros ctx ctx'.
    pose proof (aggregatesInitialized_reachable (ops ++ [RecomputeTeamAggregate ctx 0]))
      as HA.
    rewrite run_snoc in HA. fold s in HA.
    unfold transact in HA. cbn [call] in HA.
    destruct (recomputeTeamAggregate ctx 0 s) as [s1|r] eqn:H1; [|discriminate].
    assert (Hagg : is_Some (teamAggregates s1 !! 0)).
    { injection H1 as <-. cbn. rewrite lookup_insert_eq. eauto. }
    assert (Hid : idHash (aggregateAt s1 0) = 0).
    { injection H1 as <-. unfold aggregateAt. cbn. now rewrite lookup_insert_eq. }
    destruct Hagg as [a Ha].
    assert (Hinit : isInitialized (encryptedSum (aggregateAt s1 0)) = true).
    { unfold aggregateAt. rewrite Ha. cbn. now apply (HA 0). }
    destruct (requestTeamAggregateDecryption ctx' 0 s1) as [s2|r] eqn:H2.
    + exists s1, s2. split; [reflexivity|]. split; [exact Hid|].
      split; [exact H2|].
      apply request_inv in H2 as (_ & _ & _ & _ & _ & _ & Hq & _ & He).
      rewrite Hq, He. split; [apply lookup_insert_eq|].
      apply elem_of_app. right. apply list_elem_of_singleton. reflexivity.
    + apply request_revert in H2 as [_ Hf]. congruence.
  - intros requestId Hr later ctx cleartexts proof.
    pose proof (Inv_run later s HI) as HI'.
    pose proof (run_keeps_request later s requestId 0 HI Hr) as Hr'.
    assert (Hcall : call (DecryptTeamAggregate ctx requestId cleartexts proof) (run later s)
                    = Revert (RequireFailed "Invalid team")).
    { cbn. unfold decryptTeamAggregate, teamOfRequest. rewrite Hr'. cbn.
      destruct (decide (idHash (aggregateAt (run later s) 0) = 0)) as [|Hne];
        [reflexivity|].
      exfalso. apply Hne. now apply idHash_team0. }
    split; [exact Hcall|]. unfold transact. now rewrite Hcall.
  - intros later v. apply (inv_team0 _ (Inv_run later s HI)).
Qed.

(** ** The shape of a recomputation *)

Section Shape.

Context {fhe : FHE}.

Lemma filter_length_bound (f : euint32 -> bool) (l : list euint32) :
  (length (List.filter f l) <= length l)%nat.
Proof.
  induction l as [|x rest IH]; cbn; [lia|].
  destruct (f x); cbn; lia.
Qed.

Lemma filter_all (f : euint32 -> bool) (l : list euint32) :
  (forall x, In x l -> f x = true) -> List.filter f l = l.
Proof.
  induction l as [|x rest IH]; intros Hall; cbn; [reflexivity|].
  rewrite (Hall x) by now left.
  f_equal. apply IH. intros y Hy. apply Hall. now right.
Qed.

Lemma filter_some_dropped (f : euint32 -> bool) (l : list euint32) :
  (exists x, In x l /\ f x = false) ->
  (length (List.filter f l) < length l)%nat.
Proof.
  induction l as [|x rest IH]; intros (y & Hy & Hf); cbn; [contradiction|].
  destruct (f x) eqn:Hx; cbn.
  - destruct Hy as [->|Hy]; [congruence|].
    assert (length (List.filter f rest) < length rest)%nat by (apply IH; eauto).
    lia.
  - pose proof (filter_length_bound f rest). lia.
Qed.

Lemma recomputeAddCalls_rhs (teamId : Z) (s : State) :
  map callRhs (recomputeAddCalls teamId s) =
    List.filter isInitialized
      (map (fun m => findLatestEncryptedProgress m s) (membersAt s teamId)).
Proof.
  unfold recomputeAddCalls, aggregateOf. now rewrite aggregateLoop_calls.
Qed.

End Shape.

(** C2, as the code has it.  A recomputation calls [FHE.add] once for each
    entry of the member list whose resolved ciphertext is initialized, in
    list order, and passes over, by the branch on [FHE.isInitialized], each
    entry whose resolved ciphertext is not.  So the adds number at most the
    length of the list, exactly the length when every resolved ciphertext
    is initialized, and fewer as soon as one is not.  An owner without a
    record resolves to the encrypted zero [FHE.asEuint32(0)]. *)
Theorem C2_adds_follow_initialization `{fhe : FHE} (teamId : Z) (s : State) :
  map callRhs (recomputeAddCalls teamId s) =
    List.filter isInitialized
      (map (fun m => findLatestEncryptedProgress m s) (membersAt s teamId))
  /\ (length (recomputeAddCalls teamId s) <= length (membersAt s teamId))%nat
  /\ ((forall m, In m (membersAt s teamId) ->
         isInitialized (findLatestEncryptedProgress m s) = true) ->
      length (recomputeAddCalls teamId s) = length (membersAt s teamId))
  /\ ((exists m, In m (membersAt s teamId)
                 /\ isInitialized (findLatestEncryptedProgress m s) = false) ->
      (length (recomputeAddCalls teamId s) < length (membersAt s teamId))%nat)
  /\ (forall m, (forall i, 1 <= i <= okrCount s -> owner (okrAt s i) <> m) ->
        findLatestEncryptedProgress m s = asEuint32 0).
Proof.
  pose proof (recomputeAddCalls_rhs teamId s) as Hrhs.
  assert (Hlen : length (recomputeAddCalls teamId s) =
                 length (List.filter isInitialized
                           (map (fun m => findLatestEncryptedProgress m s)
                              (membersAt s teamId)))).
  { rewrite <- Hrhs. now rewrite length_map. }
  split; [exact Hrhs|]. split; [|split; [|split]].
  - rewrite Hlen.
    etransitivity; [apply filter_length_bound|]. now rewrite length_map.
  - intros Hall. rewrite Hlen, filter_all; [now rewrite length_map|].
    intros x Hx. apply in_map_iff in Hx as (m & <- & Hm). now apply Hall.
  - intros (m & Hm & Hf). rewrite Hlen.
    rewrite <- (length_map (fun m => findLatestEncryptedProgress m s) (membersAt s teamId)).
    apply filter_some_dropped.
    exists (findLatestEncryptedProgress m s). split; [|exact Hf].
    apply in_map_iff. eauto.
  - intros m Hnone. unfold findLatestEncryptedProgress.
    apply scanLatest_miss. intros i Hi. apply Hnone. lia.
Qed.


(** C4, as the code has it.  [submitEncryptedOKR] carries no modifier and
    [onlyTeamMember] on [requestTeamAggregateDecryption] is an empty stub:
    no caller is ever refused.  A submission by any caller succeeds unless
    the [uint256] counter is full, which is its only revert; the outcome of
    a decryption request does not depend on the caller, and its only revert
    is "No aggregate".  A reverted call leaves the state as it was. *)
Theorem C4_no_caller_refused `{fhe : FHE} :
  (forall ctx o k p t s,
     okrCount s + 1 <= MAX_UINT256 ->
     exists s', submitEncryptedOKR ctx o k p t s = Ok s'
                /\ okrCount s' = okrCount s + 1
                /\ encryptedOkrs s' !! (okrCount s + 1)
                   = Some {| id := okrCount s + 1; owner := msg_sender ctx;
                             encryptedObjective := o; encryptedKeyResults := k;
                             encryptedProgress := p;
                             timestamp := block_timestamp ctx |}
                /\ membersAt s' t = membersAt s t ++ [msg_sender ctx])
  /\ (forall ctx o k p t s r,
        submitEncryptedOKR ctx o k p t s = Revert r ->
        r = Panic 17
        /\ okrCount s + 1 > MAX_UINT256
        /\ transact (SubmitEncryptedOKR ctx o k p t) s = s)
  /\ (forall ctx ctx' t s,
        requestTeamAggregateDecryption ctx t s
        = requestTeamAggregateDecryption ctx' t s)
  /\ (forall ctx t s r,
        requestTeamAggregateDecryption ctx t s = Revert r ->
        r = RequireFailed "No aggregate"
        /\ isInitialized (encryptedSum (aggregateAt s t)) = false
        /\ transact (RequestTeamAggregateDecryption ctx t) s = s).
Proof.
  split; [|split; [|split]].
  - intros ctx o k p t s Hb.
    destruct (submit_total ctx o k p t s Hb) as [s' Hs].
    exists s'. split; [exact Hs|].
    pose proof (membersAt_after_submit ctx o k p t s s' t Hs) as Hm.
    apply submit_inv in Hs as (_ & Hn & Hl & _).
    split; [exact Hn|]. split; [rewrite Hl; apply lookup_insert_eq|].
    rewrite Hm. destruct (decide (t = t)); [reflexivity|contradiction].
  - intros ctx o k p t s r Hs.
    pose proof (submit_revert ctx o k p t s r Hs) as [-> Hb].
    split; [reflexivity|]. split; [exact Hb|].
    unfold transact. cbn [call]. now rewrite Hs.
  - intros ctx ctx' t s. reflexivity.
  - intros ctx t s r Hs.
    pose proof (request_revert ctx t s r Hs) as [-> Hf].
    split; [reflexivity|]. split; [exact Hf|].
    unfold transact. cbn [call]. now rewrite Hs.
Qed.

(** ** The plaintext mirror as an instance *)

Section MirrorInstance.

Import PlainMirror.

Lemma mirror_handles : FHEHandles mirrorFHE.
Proof. split; intros; reflexivity. Qed.

Lemma mirror_laws : MirrorLaws mirrorFHE mirrorOracle.
Proof.
  split.
  - intros [|v]; cbn; unfold MAX_UINT32.
    + lia.
    + pose proof (Z.mod_pos_bound v (2 ^ 32)). lia.
  - intros v. cbn. apply Zmod_mod.
  - intros a b. cbn. unfold plainAdd. apply Zmod_mod.
  - intros [|v] H; [reflexivity|discriminate].
Qed.


(** The spec's scenario, run on the mirror. *)
Example scenario_events :
  events (transact (DecryptTeamAggregate (at_ stranger 104) 0 answer100 validProof)
            sRequested)
  = [OKRSubmitted 1 alice 100; OKRSubmitted 2 bob 101; TeamAggregated team1 102;
     DecryptionRequested 0; AggregateDecrypted team1 100].
Proof. reflexivity. Qed.

Example scenario_sum :
  decrypt (encryptedSum (aggregateAt sAggregated team1)) = 100
  /\ plaintextSum [sub40; sub60] team1 = 100.
Proof. split; reflexivity. Qed.

(** Two submissions by the same owner to one team: two member entries,
    each resolving to the later progress. *)
Example latest_wins_sum :
  membersAt (run [submitOp sub20; submitOp sub80] initialState) team1 = [alice; alice]
  /\ recomputeAddCalls team1 (run [submitOp sub20; submitOp sub80] initialState)
     = [CallAdd (HVal 0) (HVal 80); CallAdd (HVal 80) (HVal 80)].
Proof. split; reflexivity. Qed.

Example request_before_recompute :
  call (RequestTeamAggregateDecryption (at_ alice 103) team2) sAggregated
  = Revert (RequireFailed "No aggregate").
Proof. reflexivity. Qed.

(** *** Instances of the theorems *)

Lemma C1_witness :
  exists s s' agg,
    submitAll [sub40; sub60] initialState = Ok s
    /\ recomputeTeamAggregate (at_ bob 102) team1 s = Ok s'
    /\ membersAt s team1 = membership [sub40; sub60] team1
    /\ teamAggregates s' !! team1 = Some agg
    /\ decrypt (encryptedSum agg) = plaintextSum [sub40; sub60] team1.
Proof.
  apply (C1_aggregation_correct mirror_laws [sub40; sub60] team1 (at_ bob 102)).
  unfold MAX_UINT256. cbn. lia.
Defined.

Lemma C6_witness :
  exists s,
    submitAll [sub40; sub60] initialState = Ok s
    /\ okrCount s = 2
    /\ encryptedOkrs s !! 1 = Some (recordOf 1 sub40)
    /\ encryptedOkrs s !! 2 = Some (recordOf 2 sub60)
    /\ omap eventId (events s) = [1; 2].
Proof.
  destruct (proj1 (C6_ids_sequential (fhe := mirrorFHE)) [sub40; sub60])
    as (s & Hrun & Hcnt & Hrec & _ & Hids & _).
  - unfold MAX_UINT256. cbn. lia.
  - exists s. split; [exact Hrun|]. split; [exact Hcnt|].
    split; [exact (Hrec 0%nat sub40 eq_refl)|].
    split; [exact (Hrec 1%nat sub60 eq_refl)|exact Hids].
Defined.

Lemma C7_witness :
  exists s1 s2 a1 a2,
    recomputeTeamAggregate (at_ bob 102) team1 (run [submitOp sub40; submitOp sub60] initialState)
      = Ok s1
    /\ recomputeTeamAggregate (at_ alice 110) team1 (run betweenOps s1) = Ok s2
    /\ teamAggregates s1 !! team1 = Some a1
    /\ teamAggregates s2 !! team1 = Some a2
    /\ encryptedSum a2 = encryptedSum a1
    /\ lastUpdated a1 = 102
    /\ lastUpdated a2 = 110.
Proof.
  destruct (C7_recompute_idempotent (fhe := mirrorFHE) (at_ bob 102) (at_ alice 110) team1
              (run [submitOp sub40; submitOp sub60] initialState) betweenOps eq_refl)
    as (s1 & s2 & a1 & a2 & H1 & H2 & H3 & H4 & H5 & _ & H6 & H7 & _).
  exists s1, s2, a1, a2. repeat split; assumption.
Defined.

Lemma C8_witness :
  exists s',
    call (RequestTeamAggregateDecryption (at_ stranger 103) team1) sAggregated = Ok s'
    /\ requestToTeamId sAggregated !! counterRequest sAggregated = None
    /\ requestToTeamId s' = <[counterRequest sAggregated := team1]> (requestToTeamId sAggregated)
    /\ events s' = events sAggregated ++ [DecryptionRequested (counterRequest sAggregated)].
Proof.
  destruct (proj2 (C8_request_decryption mirror_handles scenario (at_ stranger 103) team1))
    as (s' & H1 & H2 & _ & H3 & H4 & _).
  - eexists. reflexivity.
  - exists s'. repeat split; assumption.
Defined.

Lemma C9_witness :
  call (DecryptTeamAggregate (at_ stranger 104) 5 answer100 validProof) sRequested
    = Revert (RequireFailed "Invalid team")
  /\ transact (DecryptTeamAggregate (at_ stranger 104) 5 answer100 validProof) sRequested
     = sRequested.
Proof.
  apply (C9_unknown_request (fhe := mirrorFHE)
           (scenario ++ [RequestTeamAggregateDecryption (at_ stranger 103) team1])
           (at_ stranger 104) 5 answer100 validProof).
  left. reflexivity.
Defined.

Lemma C10_witness :
  call (DecryptTeamAggregate (at_ stranger 104) 0 answer100 validProof)
    (run zeroTeamOps initialState)
  = Revert (RequireFailed "Invalid team").
Proof.
  apply (proj1 (proj2 (C10_zero_team_unfulfillable mirror_handles zeroTeamOps))
           0 eq_refl [] (at_ stranger 104) answer100 validProof).
Defined.

Lemma C2_witness :
  (length (recomputeAddCalls team1 sOneBlank) < length (membersAt sOneBlank team1))%nat.
Proof.
  apply (proj1 (proj2 (proj2 (proj2 (C2_adds_follow_initialization (fhe := mirrorFHE) team1 sOneBlank))))).
  exists alice. split; [left; reflexivity|reflexivity].
Defined.


Lemma C4_witness :
  exists s',
    submitEncryptedOKR (at_ stranger 100) (HVal 1) (HVal 2) (HVal 40) team1 initialState
      = Ok s'
    /\ okrCount s' = 1
    /\ membersAt s' team1 = [stranger].
Proof.
  destruct (proj1 (C4_no_caller_refused (fhe := mirrorFHE)) (at_ stranger 100) (HVal 1) (HVal 2) (HVal 40)
              team1 initialState)
    as (s' & H1 & H2 & _ & H3).
  - unfold MAX_UINT256. cbn. lia.
  - exists s'. split; [exact H1|]. split; [exact H2|exact H3].
Defined.

(** *** Where the code departs from the spec *)

(** C2 fails on the code: two ledgers whose team has one member each; the
    recomputation adds once where the member's progress is initialized and
    not at all where it is blank, instead of adding a zero. *)
Lemma C2_counterexample :
  length (membersAt sOneInitialized team1) = length (membersAt sOneBlank team1)
  /\ recomputeAddCalls team1 sOneInitialized = [CallAdd (HVal 0) (HVal 40)]
  /\ recomputeAddCalls team1 sOneBlank = []
  /\ length (recomputeAddCalls team1 sOneInitialized)
     <> length (recomputeAddCalls team1 sOneBlank).
Proof.
  split; [reflexivity|]. split; [reflexivity|]. split; [reflexivity|].
  cbn. discriminate.
Qed.


(** C4 fails on the code: under a policy that refuses everyone, a caller
    who never submitted still submits and still requests a decryption; both
    calls succeed and change the state. *)
Lemma C4_counterexample :
  denyAll stranger team1 = false
  /\ (exists s',
        submitEncryptedOKR (at_ stranger 100) (HVal 1) (HVal 2) (HVal 40) team1 initialState
          = Ok s'
        /\ okrCount s' = 1
        /\ membersAt s' team1 = [stranger]
        /\ events s' = [OKRSubmitted 1 stranger 100])
  /\ (exists s',
        requestTeamAggregateDecryption (at_ stranger 103) team1 sAggregated = Ok s'
        /\ requestToTeamId s' !! 0 = Some team1
        /\ events s' = events sAggregated ++ [DecryptionRequested 0]).
Proof.
  split; [reflexivity|]. split.
  - eexists. split; [reflexivity|]. repeat split.
  - eexists. split; [reflexivity|]. repeat split.
Qed.

End MirrorInstance.

(** * Further properties of the contract *)

Section Effects.

Context {fhe : FHE}.

(** A transaction either reverts, leaving the state, or has its effect. *)
Lemma transact_effect (op : Op) (s : State) :
  (transact op s = s /\ exists r, call op s = Revert r)
  \/ (Effect s (transact op s) op /\ call op s = Ok (transact op s)).
Proof.
  unfold transact. destruct (call op s) as [s'|r] eqn:Hcall; [right|left; eauto].
  split; [|reflexivity].
  destruct op as [ctx o k p t|ctx t|ctx t|ctx r c p]; cbn in Hcall.
  - apply submit_inv in Hcall as (? & ? & ? & ? & ? & ? & ? & ? & ?).
    now constructor.
  - injection Hcall as <-. now constructor.
  - apply request_inv in Hcall as (? & ? & ? & ? & ? & ? & ? & ? & ?).
    now constructor.
  - apply callback_inv in Hcall as (? & ? & v & ? & ? & ? & ? & ? & ? & ? & ? & ?).
    now apply (EffectCallback s s' ctx r c p v).
Qed.

(** To show that the reachable states keep a property, show that the
    deployed state has it and that no effect of a call breaks it. *)
Lemma invariant_transact (P : State -> Prop) :
  (forall s s' op, P s -> Effect s s' op -> P s') ->
  forall op s, P s -> P (transact op s).
Proof.
  intros Hstep op s HP.
  destruct (transact_effect op s) as [[-> _]|[Heff _]]; [exact HP|].
  exact (Hstep s _ op HP Heff).
Qed.

Lemma invariant_run (P : State -> Prop) :
  (forall s s' op, P s -> Effect s s' op -> P s') ->
  forall ops s, P s -> P (run ops s).
Proof.
  intros Hstep ops. induction ops as [|op rest IH]; intros s HP; cbn; [exact HP|].
  apply IH. now apply invariant_transact.
Qed.

Lemma idsFrom_snoc (n : nat) : forall first : Z,
  idsFrom first (S n) = idsFrom first n ++ [first + Z.of_nat n].
Proof.
  induction n as [|n IH]; intros first.
  - cbn. f_equal. lia.
  - change (idsFrom first (S (S n))) with (first :: idsFrom (first + 1) (S n)).
    rewrite IH. cbn [idsFrom app]. f_equal. f_equal.
    assert (first + 1 + Z.of_nat n = first + Z.of_nat (S n)) as -> by lia.
    reflexivity.
Qed.

Lemma LedgerInv_initial : LedgerInv initialState.
Proof.
  split; cbn.
  - unfold MAX_UINT256. lia.
  - intros i Hi. lia.
  - intros i _. apply lookup_empty.
  - reflexivity.
  - intros i o t H. now apply not_elem_of_nil in H.
Qed.

(** An event other than [OKRSubmitted] adds nothing to the ledger's log. *)
Lemma LedgerInv_other (s s' : State) (e : Event) :
  LedgerInv s ->
  okrCount s' = okrCount s ->
  encryptedOkrs s' = encryptedOkrs s ->
  events s' = events s ++ [e] ->
  eventId e = None ->
  LedgerInv s'.
Proof.
  intros [Hc Hin Hout Hids Hlog] Hn Hl He Hid.
  split; rewrite ?Hn, ?Hl, ?He; try assumption.
  - rewrite omap_app, Hids. cbn. rewrite Hid. apply app_nil_r.
  - intros i o t H. apply elem_of_snoc in H as [H|H]; [now apply Hlog|].
    subst e. discriminate Hid.
Qed.

Lemma LedgerInv_effect (s s' : State) (op : Op) :
  LedgerInv s -> Effect s s' op -> LedgerInv s'.
Proof.
  intros HI Heff.
  destruct Heff as [ctx o k p t Hb Hn Hl _ _ _ _ _ He
                   |ctx t Hn Hl _ _ _ _ _ He
                   |ctx t _ Hn Hl _ _ _ _ _ He
                   |ctx r c p v _ _ _ Hn Hl _ _ _ _ _ He].
  2-4: eapply LedgerInv_other; eauto.
  destruct HI as [Hc Hin Hout Hids Hlog].
  split; rewrite ?Hn, ?Hl, ?He.
  - lia.
  - intros i Hi. destruct (decide (okrCount s + 1 = i)) as [<-|Hne].
    + rewrite lookup_insert_eq. eexists. split; reflexivity.
    + rewrite lookup_insert_ne by assumption. apply Hin. lia.
  - intros i Hi. rewrite lookup_insert_ne by lia. apply Hout. lia.
  - rewrite omap_app, Hids. cbn.
    replace (Z.to_nat (okrCount s + 1)) with (S (Z.to_nat (okrCount s))) by lia.
    rewrite idsFrom_snoc. f_equal. f_equal. lia.
  - intros i o' t' H. apply elem_of_snoc in H as [H|H].
    + destruct (Hlog i o' t' H) as (r & Hr & Ho & Ht).
      assert (i <> okrCount s + 1).
      { intros ->. rewrite Hout in Hr by lia. discriminate. }
      rewrite lookup_insert_ne by auto. eauto.
    + injection H as -> -> ->. rewrite lookup_insert_eq. eauto.
Qed.

Lemma LedgerInv_run (ops : list Op) : forall s, LedgerInv s -> LedgerInv (run ops s).
Proof. apply invariant_run. intros s s' op. apply LedgerInv_effect. Qed.

Lemma LedgerInv_reachable (ops : list Op) : LedgerInv (run ops initialState).
Proof. apply LedgerInv_run, LedgerInv_initial. Qed.

End Effects.

(** X1. In every reachable state the counter is within [uint256],
    [getEncryptedOKR] of an id in [1 .. okrCount] returns a stored record
    whose [id] field is that id, and of any other id (0, or one not yet
    assigned) the all-zero record. *)
Theorem getEncryptedOKR_reachable `{fhe : FHE} (ops : list Op) (okrId : Z) :
  let s := run ops initialState in
  0 <= okrCount s <= MAX_UINT256
  /\ (1 <= okrId <= okrCount s ->
      is_Some (encryptedOkrs s !! okrId) /\ id (getEncryptedOKR okrId s) = okrId)
  /\ (~ (1 <= okrId <= okrCount s) -> getEncryptedOKR okrId s = blankOKR).
Proof.
  intros s. destruct (LedgerInv_reachable ops) as [Hc Hin Hout _ _]. fold s in Hc, Hin, Hout.
  split; [exact Hc|]. split.
  - intros Hi. destruct (Hin okrId Hi) as (r & Hr & Hid).
    unfold getEncryptedOKR, okrAt. rewrite Hr. split; [eauto|exact Hid].
  - intros Hi. unfold getEncryptedOKR, okrAt. now rewrite (Hout okrId Hi).
Qed.

(** X2. In every reachable state, whatever other transactions came
    between the submissions, the ids of the [OKRSubmitted] events are
    1, 2, ..., [okrCount] in order, and each such event names a stored
    record with the owner and the timestamp the event carries. *)
Theorem log_matches_ledger `{fhe : FHE} (ops : list Op) :
  let s := run ops initialState in
  omap eventId (events s) = idsFrom 1 (Z.to_nat (okrCount s))
  /\ forall i o t, OKRSubmitted i o t ∈ events s ->
       1 <= i <= okrCount s
       /\ id (getEncryptedOKR i s) = i
       /\ owner (getEncryptedOKR i s) = o
       /\ timestamp (getEncryptedOKR i s) = t.
Proof.
  intros s. destruct (LedgerInv_reachable ops) as [Hc Hin Hout Hids Hlog].
  fold s in Hc, Hin, Hout, Hids, Hlog.
  split; [exact Hids|].
  intros i o t H. destruct (Hlog i o t H) as (r & Hr & Ho & Ht).
  assert (Hi : 1 <= i <= okrCount s).
  { destruct (decide (1 <= i <= okrCount s)) as [Hi|Hi]; [exact Hi|].
    rewrite (Hout i Hi) in Hr. discriminate. }
  destruct (Hin i Hi) as (r' & Hr' & Hid).
  unfold getEncryptedOKR, okrAt. rewrite Hr. cbn.
  rewrite Hr in Hr'. injection Hr' as <-. auto.
Qed.

(** ** Member lists *)

Section Members.

Context {fhe : FHE}.

(** When some record in [1 .. n] belongs to the owner, the scan stops at
    the last of them. *)
Lemma scanLatest_found (s : State) (who : Z) (n : nat) :
  (exists i, 1 <= i <= Z.of_nat n /\ owner (okrAt s i) = who) ->
  exists j, 1 <= j <= Z.of_nat n
            /\ owner (okrAt s j) = who
            /\ (forall k, j < k <= Z.of_nat n -> owner (okrAt s k) <> who)
            /\ scanLatest s who n = encryptedProgress (okrAt s j).
Proof.
  induction n as [|n IH]; intros (i & Hi & Ho); [lia|].
  destruct (decide (owner (okrAt s (Z.of_nat (S n))) = who)) as [Heq|Hne].
  - exists (Z.of_nat (S n)). split; [lia|]. split; [exact Heq|]. split; [intros k Hk; lia|].
    cbn [scanLatest].
    destruct (decide (owner (okrAt s (Z.of_nat (S n))) = who)); [reflexivity|contradiction].
  - assert (Hi' : i <> Z.of_nat (S n)) by (intros ->; contradiction).
    destruct IH as (j & Hj & Hjo & Hlater & Hscan).
    { exists i. split; [lia|exact Ho]. }
    exists j. split; [lia|]. split; [exact Hjo|]. split.
    + intros k Hk. destruct (decide (k = Z.of_nat (S n))) as [->|Hk'].
      * exact Hne.
      * apply Hlater. lia.
    + cbn [scanLatest].
      destruct (decide (owner (okrAt s (Z.of_nat (S n))) = who)); [contradiction|exact Hscan].
Qed.

Lemma sumLengths_insert_fresh (m : gmap Z (list Z)) (t : Z) (l : list Z) :
  m !! t = None ->
  sumLengths (<[t := l]> m) = (length l + sumLengths m)%nat.
Proof.
  intros Hfresh. unfold sumLengths.
  rewrite map_fold_insert_L; [reflexivity| |exact Hfresh].
  intros. lia.
Qed.

Lemma sumLengths_insert (m : gmap Z (list Z)) (t : Z) (l : list Z) :
  (sumLengths (<[t := l]> m) + length (default [] (m !! t)) = length l + sumLengths m)%nat.
Proof.
  destruct (m !! t) as [old|] eqn:Hold; cbn.
  - rewrite <- (insert_delete_eq m t l).
    rewrite sumLengths_insert_fresh by apply lookup_delete_eq.
    rewrite <- (insert_delete_id m t old Hold) at 2.
    rewrite sumLengths_insert_fresh by apply lookup_delete_eq. lia.
  - rewrite sumLengths_insert_fresh by exact Hold. lia.
Qed.

Lemma MembersInv_initial : MembersInv initialState.
Proof.
  split.
  - intros T m H. unfold membersAt in H. cbn in H. rewrite lookup_empty in H.
    now apply not_elem_of_nil in H.
  - reflexivity.
Qed.

Lemma MembersInv_effect (s s' : State) (op : Op) :
  LedgerInv s /\ MembersInv s -> Effect s s' op -> LedgerInv s' /\ MembersInv s'.
Proof.
  intros [HL [Hown Htot]] Heff.
  split; [exact (LedgerInv_effect s s' op HL Heff)|].
  assert (Hsame : okrCount s' = okrCount s -> encryptedOkrs s' = encryptedOkrs s ->
                  teamMembers s' = teamMembers s -> MembersInv s').
  { intros Hn Hl Hm. split.
    - intros T m. unfold membersAt, okrAt. rewrite Hm, Hn, Hl. apply Hown.
    - unfold totalMembers. now rewrite Hm, Hn. }
  destruct Heff as [ctx o k p t Hb Hn Hl _ Hm _ _ _ _
                   |ctx t Hn Hl _ Hm _ _ _ _
                   |ctx t _ Hn Hl _ Hm _ _ _ _
                   |ctx r c p v _ _ _ Hn Hl _ Hm _ _ _ _].
  2-4: now apply Hsame.
  pose proof (li_count s HL) as Hc.
  assert (Hold : forall i, i <= okrCount s -> okrAt s' i = okrAt s i).
  { intros i Hi. unfold okrAt. rewrite Hl, lookup_insert_ne by lia. reflexivity. }
  split.
  - intros T m Hin. rewrite Hn.
    assert (Hcases : m ∈ membersAt s T \/ m = msg_sender ctx).
    { unfold membersAt in Hin. rewrite Hm in Hin.
      destruct (decide (t = T)) as [->|Hne].
      - rewrite lookup_insert_eq in Hin. cbn in Hin.
        apply elem_of_app in Hin as [Hin|Hin]; [now left|].
        right. now apply list_elem_of_singleton in Hin.
      - rewrite lookup_insert_ne in Hin by assumption. now left. }
    destruct Hcases as [Hin'| ->].
    + destruct (Hown T m Hin') as (i & Hi & Ho).
      exists i. split; [lia|]. rewrite Hold by lia. exact Ho.
    + exists (okrCount s + 1). split; [lia|].
      unfold okrAt. rewrite Hl, lookup_insert_eq. reflexivity.
  - unfold totalMembers in *. rewrite Hm, Hn.
    pose proof (sumLengths_insert (teamMembers s) t (membersAt s t ++ [msg_sender ctx])) as Hs.
    unfold sumLengths, membersAt in *. rewrite length_app in Hs. cbn in Hs. lia.
Qed.

Lemma MembersInv_reachable (ops : list Op) :
  LedgerInv (run ops initialState) /\ MembersInv (run ops initialState).
Proof.
  apply (invariant_run (fun s => LedgerInv s /\ MembersInv s) MembersInv_effect).
  split; [apply LedgerInv_initial|apply MembersInv_initial].
Qed.

(** A member list only grows, at its end. *)
Lemma members_prefix_effect (s s' : State) (op : Op) (T : Z) :
  Effect s s' op -> membersAt s T `prefix_of` membersAt s' T.
Proof.
  intros Heff. unfold membersAt.
  destruct Heff as [ctx o k p t _ _ _ _ Hm _ _ _ _
                   |ctx t _ _ _ Hm _ _ _ _
                   |ctx t _ _ _ _ Hm _ _ _ _
                   |ctx r c p v _ _ _ _ _ _ Hm _ _ _ _]; rewrite Hm; try reflexivity.
  destruct (decide (t = T)) as [->|Hne].
  - rewrite lookup_insert_eq. cbn. now apply prefix_app_r.
  - now rewrite lookup_insert_ne.
Qed.

End Members.

(** X3. In every reachable state each entry of a team's member list is an
    address that owns a record of the ledger, so for a member the scan of
    [findLatestEncryptedProgress] always stops at one of the member's own
    records, the one with the greatest id, and never falls through to the
    encrypted zero returned for an address without records. *)
Theorem member_resolves_to_own_record `{fhe : FHE} (ops : list Op) (teamId m : Z) :
  let s := run ops initialState in
  m ∈ membersAt s teamId ->
  exists j, 1 <= j <= okrCount s
            /\ owner (okrAt s j) = m
            /\ (forall k, j < k <= okrCount s -> owner (okrAt s k) <> m)
            /\ findLatestEncryptedProgress m s = encryptedProgress (okrAt s j).
Proof.
  intros s Hin. destruct (MembersInv_reachable ops) as [HL [Hown _]]. fold s in HL, Hown.
  pose proof (li_count s HL) as Hc.
  destruct (Hown teamId m Hin) as (i & Hi & Ho).
  destruct (scanLatest_found s m (Z.to_nat (okrCount s))) as (j & Hj & Hjo & Hlater & Hscan).
  { exists i. split; [lia|exact Ho]. }
  exists j. split; [lia|]. split; [exact Hjo|]. split; [|exact Hscan].
  intros k Hk. apply Hlater. lia.
Qed.

(** X4. In every reachable state the member lists of all teams together
    hold exactly [okrCount] entries: each submission appends one entry, and
    nothing else adds or removes one. *)
Theorem member_entries_count `{fhe : FHE} (ops : list Op) :
  Z.of_nat (totalMembers (run ops initialState)) = okrCount (run ops initialState).
Proof. destruct (MembersInv_reachable ops) as [_ [_ Htot]]. exact Htot. Qed.

(** X5. Member lists are append-only: over any transactions a team's list
    in the earlier state is a prefix of its list in the later state, and
    transactions that are not submissions leave it as it is. *)
Theorem members_append_only `{fhe : FHE} (ops : list Op) (s : State) (teamId : Z) :
  membersAt s teamId `prefix_of` membersAt (run ops s) teamId
  /\ (forallb (fun op => negb (isSubmission op)) ops = true ->
      membersAt (run ops s) teamId = membersAt s teamId).
Proof.
  split.
  - apply (invariant_run (fun s' => membersAt s teamId `prefix_of` membersAt s' teamId)).
    + intros s1 s2 op Hp Heff. etransitivity; [exact Hp|].
      now apply (members_prefix_effect s1 s2 op).
    + reflexivity.
  - intros Hops. destruct (run_others_keeps_inputs ops s Hops) as (_ & _ & Hm).
    unfold membersAt. now rewrite Hm.
Qed.

(** ** The aggregates, the oracle's table and the log *)

Section Oracle2.

Context {fhe : FHE}.

(** An effect determines the state the transaction leaves. *)
Lemma Effect_transact (s s' : State) (op : Op) :
  Effect s s' op -> s' = transact op s.
Proof.
  intros Heff. destruct s' as [c l a m q1 q2 n e].
  destruct Heff as [ctx o k p t Hb Hn Hl Ha Hm Hq1 Hq2 Hc He
                   |ctx t Hn Hl Ha Hm Hq1 Hq2 Hc He
                   |ctx t Hi Hn Hl Ha Hm Hq1 Hq2 Hc He
                   |ctx r c' p v Hg Hs Hd Hn Hl Ha Hm Hq1 Hq2 Hc He];
    cbn in *; subst; unfold transact; cbn [call].
  - unfold submitEncryptedOKR.
    destruct (okrCount s + 1 >? MAX_UINT256) eqn:Hof; [lia|reflexivity].
  - reflexivity.
  - unfold requestTeamAggregateDecryption, onlyTeamMember. rewrite Hi. reflexivity.
  - unfold decryptTeamAggregate.
    destruct (decide (idHash (aggregateAt s (teamOfRequest s r)) = 0)); [contradiction|].
    rewrite Hs, Hd. reflexivity.
Qed.

Lemma Inv_effect (s s' : State) (op : Op) : Inv s -> Effect s s' op -> Inv s'.
Proof.
  intros HI Heff. rewrite (Effect_transact s s' op Heff). now apply Inv_transact.
Qed.

Lemma lastAggregated_snoc (evs : list Event) (e : Event) (T : Z) :
  lastAggregated (evs ++ [e]) T =
    match e with
    | TeamAggregated t ts => if decide (t = T) then Some ts else lastAggregated evs T
    | _ => lastAggregated evs T
    end.
Proof. unfold lastAggregated. rewrite fold_left_app. reflexivity. Qed.

Lemma beValue_nonneg (bs : list byte) : 0 <= beValue bs.
Proof.
  unfold beValue.
  assert (H : forall acc, 0 <= acc ->
            0 <= fold_left (fun a b => a * 256 + Z.of_N (Byte.to_N b)) bs acc).
  { induction bs as [|b rest IH]; intros acc Hacc; cbn [fold_left]; [exact Hacc|].
    apply IH. lia. }
  apply H. lia.
Qed.

Lemma abiDecodeUint32_range (data : list byte) (v : Z) :
  abiDecodeUint32 data = Some v ->
  0 <= v <= MAX_UINT32 /\ (32 <= length data)%nat.
Proof.
  unfold abiDecodeUint32.
  destruct (Z.of_nat (length data) <? 32) eqn:Hlen; [discriminate|].
  destruct (beValue (take 32 data) <=? MAX_UINT32) eqn:Hv; [|discriminate].
  intros [= <-]. pose proof (beValue_nonneg (take 32 data)). lia.
Qed.

Lemma OracleInv_initial : OracleInv initialState.
Proof.
  split; cbn.
  - intros T. now rewrite lookup_empty.
  - intros T v H. now apply not_elem_of_nil in H.
  - reflexivity.
Qed.

Lemma OracleInv_effect (s s' : State) (op : Op) :
  Inv s /\ OracleInv s -> Effect s s' op -> Inv s' /\ OracleInv s'.
Proof.
  intros [HI [Hupd Hdec Hq]] Heff.
  split; [exact (Inv_effect s s' op HI Heff)|].
  (* stored aggregates and recorded requests are kept by every effect *)
  assert (Hkeep : forall T v, AggregateDecrypted T v ∈ events s ->
            T <> 0 /\ is_Some (teamAggregates s' !! T) /\ 0 <= v <= MAX_UINT32
            /\ exists r, requestToTeamId s' !! r = Some T).
  { intros T v H. destruct (Hdec T v H) as (H0 & Ha & Hv & r & Hr).
    split; [exact H0|]. split; [|split; [exact Hv|]].
    - destruct Heff; try congruence.
      match goal with H : teamAggregates s' = _ |- _ => rewrite H end.
      destruct (decide (t = T)) as [->|Hne];
        [rewrite lookup_insert_eq; eauto|now rewrite lookup_insert_ne].
    - exists r. rewrite (Effect_transact s s' op Heff).
      now apply transact_keeps_request. }
  destruct Heff as [ctx o k p t Hb Hn Hl Ha Hm Hq1 Hq2 Hc He
                   |ctx t Hn Hl Ha Hm Hq1 Hq2 Hc He
                   |ctx t Hi Hn Hl Ha Hm Hq1 Hq2 Hc He
                   |ctx r c p v Hg Hs Hd Hn Hl Ha Hm Hq1 Hq2 Hc He];
    (split; [| |congruence]).
  - intros T. rewrite Ha, He, lastAggregated_snoc. apply Hupd.
  - intros T v H. rewrite He in H. apply elem_of_snoc in H as [H|H]; [|discriminate].
    now apply Hkeep.
  - intros T. rewrite Ha, He, lastAggregated_snoc.
    destruct (decide (t = T)) as [->|Hne].
    + now rewrite lookup_insert_eq.
    + rewrite lookup_insert_ne by assumption. apply Hupd.
  - intros T v H. rewrite He in H. apply elem_of_snoc in H as [H|H]; [|discriminate].
    now apply Hkeep.
  - intros T. rewrite Ha, He, lastAggregated_snoc. apply Hupd.
  - intros T v H. rewrite He in H. apply elem_of_snoc in H as [H|H]; [|discriminate].
    now apply Hkeep.
  - intros T. rewrite Ha, He, lastAggregated_snoc. apply Hupd.
  - intros T v' H. rewrite He in H. apply elem_of_snoc in H as [H|H]; [now apply Hkeep|].
    injection H as -> ->.
    assert (Hsome : exists a, teamAggregates s !! teamOfRequest s r = Some a).
    { unfold aggregateAt in Hg.
      destruct (teamAggregates s !! teamOfRequest s r) as [a|]; [eauto|].
      cbn in Hg. contradiction. }
    destruct Hsome as [a Hsome].
    assert (Hid : idHash a = teamOfRequest s r) by now apply (inv_idHash s HI).
    assert (Hne : teamOfRequest s r <> 0).
    { unfold aggregateAt in Hg. rewrite Hsome in Hg. cbn in Hg. congruence. }
    split; [exact Hne|]. split; [rewrite Ha; eauto|].
    split; [now apply (abiDecodeUint32_range c)|].
    exists r. rewrite Hq2. unfold teamOfRequest in *.
    destruct (requestToTeamId s !! r) as [T|]; [reflexivity|]. cbn in Hne. contradiction.
Qed.

Lemma OracleInv_reachable (ops : list Op) :
  Inv (run ops initialState) /\ OracleInv (run ops initialState).
Proof.
  apply (invariant_run (fun s => Inv s /\ OracleInv s) OracleInv_effect).
  split; [apply Inv_initial|apply OracleInv_initial].
Qed.

(** With a library whose blank handle is uninitialized, a request is only
    recorded against a team that has a stored aggregate. *)
Lemma requests_have_aggregates_effect `{!FHEHandles fhe} (s s' : State) (op : Op) :
  (forall r T, requestToTeamId s !! r = Some T -> is_Some (teamAggregates s !! T)) ->
  Effect s s' op ->
  forall r T, requestToTeamId s' !! r = Some T -> is_Some (teamAggregates s' !! T).
Proof.
  intros HP Heff r T.
  destruct Heff as [ctx o k p t Hb Hn Hl Ha Hm Hq1 Hq2 Hc He
                   |ctx t Hn Hl Ha Hm Hq1 Hq2 Hc He
                   |ctx t Hi Hn Hl Ha Hm Hq1 Hq2 Hc He
                   |ctx r' c p v Hg Hs Hd Hn Hl Ha Hm Hq1 Hq2 Hc He];
    rewrite Ha, Hq2.
  - apply HP.
  - intros Hr. destruct (decide (t = T)) as [->|Hne].
    + rewrite lookup_insert_eq. eauto.
    + rewrite lookup_insert_ne by assumption. now apply (HP r).
  - destruct (decide (counterRequest s = r)) as [->|Hne].
    + rewrite lookup_insert_eq. intros [= <-].
      unfold aggregateAt in Hi.
      destruct (teamAggregates s !! t) as [a|]; [eauto|].
      cbn in Hi. rewrite null_uninitialized in Hi. discriminate.
    + rewrite lookup_insert_ne by assumption. apply HP.
  - apply HP.
Qed.

End Oracle2.

(** X6. In every reachable state [getEncryptedAggregate] returns, as
    [lastUpdated], the timestamp of the team's most recent
    [TeamAggregated] event; for a team never aggregated it returns the
    blank handle and 0, and no aggregate is stored. *)
Theorem getEncryptedAggregate_reachable `{fhe : FHE} (ops : list Op) (teamId : Z) :
  let s := run ops initialState in
  match lastAggregated (events s) teamId with
  | Some ts =>
      is_Some (teamAggregates s !! teamId)
      /\ snd (getEncryptedAggregate teamId s) = ts
      /\ idHash (aggregateAt s teamId) = teamId
  | None =>
      teamAggregates s !! teamId = None
      /\ getEncryptedAggregate teamId s = (nullHandle, 0)
  end.
Proof.
  intros s. destruct (OracleInv_reachable ops) as [HI [Hupd _ _]]. fold s in HI, Hupd.
  specialize (Hupd teamId). unfold getEncryptedAggregate, aggregateAt.
  destruct (lastAggregated (events s) teamId) as [ts|];
    destruct (teamAggregates s !! teamId) as [a|] eqn:Ha; cbn in Hupd; try discriminate.
  - injection Hupd as <-. cbn. split; [eauto|]. split; [reflexivity|].
    now apply (inv_idHash s HI).
  - split; reflexivity.
Qed.

(** X7. Every [AggregateDecrypted] event in the log of a reachable state
    is for a team other than team 0 that has a stored aggregate and a
    recorded decryption request, and carries a value within [uint32]. *)
Theorem decrypted_event_provenance `{fhe : FHE} (ops : list Op) (teamId v : Z) :
  let s := run ops initialState in
  AggregateDecrypted teamId v ∈ events s ->
  teamId <> 0
  /\ is_Some (teamAggregates s !! teamId)
  /\ 0 <= v <= MAX_UINT32
  /\ exists r, requestToTeamId s !! r = Some teamId
               /\ DecryptionRequested r ∈ events s.
Proof.
  intros s H. destruct (OracleInv_reachable ops) as [HI [_ Hdec _]]. fold s in HI, Hdec.
  destruct (Hdec teamId v H) as (H0 & Ha & Hv & r & Hr).
  split; [exact H0|]. split; [exact Ha|]. split; [exact Hv|].
  exists r. split; [exact Hr|]. apply (inv_logged s HI). rewrite Hr. eauto.
Qed.

(** X8. With an FHE library whose blank handle is uninitialized, every
    request recorded in a reachable state is recorded against a team
    whose aggregate has been computed, and was logged by a
    [DecryptionRequested] event with an id below the request counter. *)
Theorem request_has_aggregate `{fhe : FHE} (handles : FHEHandles fhe)
  (ops : list Op) (r teamId : Z) :
  let s := run ops initialState in
  requestToTeamId s !! r = Some teamId ->
  is_Some (teamAggregates s !! teamId)
  /\ idHash (aggregateAt s teamId) = teamId
  /\ DecryptionRequested r ∈ events s
  /\ 0 <= r < counterRequest s.
Proof.
  intros s Hr. pose proof (Inv_reachable ops) as HI. fold s in HI.
  assert (Ha : is_Some (teamAggregates s !! teamId)).
  { revert r teamId Hr. unfold s.
    apply (invariant_run
             (fun s => forall r T, requestToTeamId s !! r = Some T ->
                                   is_Some (teamAggregates s !! T))).
    - intros s1 s2 op. apply requests_have_aggregates_effect.
    - intros r T H. cbn in H. now rewrite lookup_empty in H. }
  split; [exact Ha|]. split.
  - destruct Ha as [a Ha]. unfold aggregateAt. rewrite Ha. cbn.
    now apply (inv_idHash s HI).
  - split; [apply (inv_logged s HI)|apply (inv_requests s HI)]; rewrite Hr; eauto.
Qed.

(** ** Submissions and the next recomputation *)

Section Compose.

Context {fhe : FHE}.

(** A submission moves its sender's latest record and nobody else's. *)
Lemma findLatest_submit (ctx : Call) (o k p : euint32) (t : Z) (s s' : State) (who : Z) :
  0 <= okrCount s ->
  submitEncryptedOKR ctx o k p t s = Ok s' ->
  findLatestEncryptedProgress who s' =
    if decide (who = msg_sender ctx) then p else findLatestEncryptedProgress who s.
Proof.
  intros Hc Hs. destruct (decide (who = msg_sender ctx)) as [->|Hne].
  - now apply (findLatest_after_submit ctx o k p t s s').
  - apply submit_inv in Hs as (_ & Hn & Hl & _).
    unfold findLatestEncryptedProgress. rewrite Hn.
    replace (Z.to_nat (okrCount s + 1)) with (S (Z.to_nat (okrCount s))) by lia.
    cbn [scanLatest].
    replace (Z.of_nat (S (Z.to_nat (okrCount s)))) with (okrCount s + 1) by lia.
    assert (Hr : okrAt s' (okrCount s + 1) =
                 {| id := okrCount s + 1; owner := msg_sender ctx;
                    encryptedObjective := o; encryptedKeyResults := k;
                    encryptedProgress := p; timestamp := block_timestamp ctx |}).
    { unfold okrAt. rewrite Hl, lookup_insert_eq. reflexivity. }
    rewrite Hr. cbn [owner].
    destruct (decide (msg_sender ctx = who)) as [Heq|_]; [congruence|].
    apply scanLatest_ext. intros i Hi. unfold okrAt.
    rewrite Hl, lookup_insert_ne by lia. reflexivity.
Qed.

Lemma aggregateLoop_fold (s : State) (members : list Z) :
  forall acc calls,
    fst (aggregateLoop s members acc calls) =
      fold_left add
        (List.filter isInitialized (map (fun m => findLatestEncryptedProgress m s) members))
        acc.
Proof.
  induction members as [|m rest IH]; intros acc calls; cbn.
  - reflexivity.
  - destruct (isInitialized (findLatestEncryptedProgress m s)); cbn; apply IH.
Qed.

End Compose.

(** X10. A successful submission makes its progress ciphertext the value
    that aggregation resolves for the sender, and leaves the value
    resolved for every other address as it was. *)
Theorem submission_moves_only_sender `{fhe : FHE}
  (ctx : Call) (o k p : euint32) (t : Z) (s s' : State) :
  0 <= okrCount s ->
  submitEncryptedOKR ctx o k p t s = Ok s' ->
  findLatestEncryptedProgress (msg_sender ctx) s' = p
  /\ forall who, who <> msg_sender ctx ->
       findLatestEncryptedProgress who s' = findLatestEncryptedProgress who s.
Proof.
  intros Hc Hs. split.
  - rewrite (findLatest_submit ctx o k p t s s' _ Hc Hs).
    destruct (decide (msg_sender ctx = msg_sender ctx)); [reflexivity|contradiction].
  - intros who Hne. rewrite (findLatest_submit ctx o k p t s s' who Hc Hs).
    destruct (decide (who = msg_sender ctx)); [contradiction|reflexivity].
Qed.

(** X11. Records carry no team, so a submission to one team changes what
    another team aggregates: after a submission to team [t], the member
    list of any other team is unchanged, but every entry of the sender in
    it now resolves to the progress just submitted to [t]. *)
Theorem submission_reaches_other_teams `{fhe : FHE}
  (ctx : Call) (o k p : euint32) (t teamId : Z) (s s' : State) :
  0 <= okrCount s ->
  t <> teamId ->
  submitEncryptedOKR ctx o k p t s = Ok s' ->
  membersAt s' teamId = membersAt s teamId
  /\ resolvedOf teamId s' =
       map (fun m => if decide (m = msg_sender ctx) then p
                     else findLatestEncryptedProgress m s)
         (membersAt s teamId)
  /\ (msg_sender ctx ∈ membersAt s teamId -> p ∈ resolvedOf teamId s').
Proof.
  intros Hc Hne Hs.
  assert (Hm : membersAt s' teamId = membersAt s teamId).
  { rewrite (membersAt_after_submit ctx o k p t s s' teamId Hs).
    destruct (decide (t = teamId)); [contradiction|reflexivity]. }
  assert (Hres : resolvedOf teamId s' =
                 map (fun m => if decide (m = msg_sender ctx) then p
                               else findLatestEncryptedProgress m s)
                   (membersAt s teamId)).
  { unfold resolvedOf. rewrite Hm. apply map_ext. intros m.
    apply (findLatest_submit ctx o k p t s s' m Hc Hs). }
  split; [exact Hm|]. split; [exact Hres|].
  intros Hin. rewrite Hres. apply list_elem_of_fmap.
  exists (msg_sender ctx). split; [|exact Hin].
  destruct (decide (msg_sender ctx = msg_sender ctx)); [reflexivity|contradiction].
Qed.

(** X12. The accumulator a recomputation stores is the left fold of
    [FHE.add] from [FHE.asEuint32(0)] over the resolved ciphertexts that
    are initialized, in member order; the recorded [FHE.add] calls have
    exactly these ciphertexts as right operands. *)
Theorem aggregate_is_fold `{fhe : FHE} (ctx : Call) (teamId : Z) (s : State) :
  exists s',
    recomputeTeamAggregate ctx teamId s = Ok s'
    /\ encryptedSum (aggregateAt s' teamId) =
         fold_left add (List.filter isInitialized (resolvedOf teamId s)) (asEuint32 0)
    /\ map callRhs (recomputeAddCalls teamId s) =
         List.filter isInitialized (resolvedOf teamId s).
Proof.
  destruct (recompute_ok ctx teamId s) as (s' & Hr & _ & _ & Ha & _).
  exists s'. split; [exact Hr|]. split.
  - unfold aggregateAt. rewrite Ha, lookup_insert_eq. cbn.
    unfold aggregateOf. apply aggregateLoop_fold.
  - apply recomputeAddCalls_rhs.
Qed.

(** X13. Recomputing a team with an empty member list stores the
    encrypted zero without any [FHE.add]; with a library whose returned
    handles are initialized, a decryption of that aggregate can then be
    requested, though nobody has submitted to the team. *)
Theorem empty_team_aggregate `{fhe : FHE} (handles : FHEHandles fhe)
  (ctx ctx' : Call) (teamId : Z) (s : State) :
  membersAt s teamId = [] ->
  recomputeAddCalls teamId s = []
  /\ exists s' s'',
       recomputeTeamAggregate ctx teamId s = Ok s'
       /\ encryptedSum (aggregateAt s' teamId) = asEuint32 0
       /\ requestTeamAggregateDecryption ctx' teamId s' = Ok s''
       /\ requestToTeamId s'' !! counterRequest s' = Some teamId.
Proof.
  intros Hm.
  assert (Hagg : aggregateOf teamId s = (asEuint32 0, [])).
  { unfold aggregateOf. rewrite Hm. reflexivity. }
  split; [unfold recomputeAddCalls; now rewrite Hagg|].
  destruct (recompute_ok ctx teamId s) as (s' & Hr & _ & _ & Ha & _).
  assert (Hsum : encryptedSum (aggregateAt s' teamId) = asEuint32 0).
  { unfold aggregateAt. rewrite Ha, lookup_insert_eq. cbn. now rewrite Hagg. }
  destruct (requestTeamAggregateDecryption ctx' teamId s') as [s''|e] eqn:Hreq.
  - exists s', s''. split; [exact Hr|]. split; [exact Hsum|]. split; [exact Hreq|].
    apply request_inv in Hreq as (_ & _ & _ & _ & _ & _ & Hq & _).
    rewrite Hq. apply lookup_insert_eq.
  - apply request_revert in Hreq as [_ Hf].
    rewrite Hsum, asEuint32_initialized in Hf. discriminate.
Qed.

(** X14. A callback whose signatures fail verification, or whose payload
    is shorter than one 32-byte word, reverts: it emits nothing and the
    transaction leaves the state as it was, whatever the request id. *)
Theorem callback_rejected `{fhe : FHE}
  (ctx : Call) (requestId : Z) (cleartexts proof : list byte) (s : State) :
  checkSignatures requestId cleartexts proof = false
  \/ (length cleartexts < 32)%nat ->
  (exists e, call (DecryptTeamAggregate ctx requestId cleartexts proof) s = Revert e)
  /\ transact (DecryptTeamAggregate ctx requestId cleartexts proof) s = s.
Proof.
  intros Hbad.
  destruct (transact_effect (DecryptTeamAggregate ctx requestId cleartexts proof) s)
    as [[Heq Hrev]|[Heff _]]; [split; assumption|].
  exfalso. inversion Heff as [| | |? ? ? ? v Hg Hs Hd]; subst.
  destruct Hbad as [Hsig|Hlen]; [congruence|].
  apply abiDecodeUint32_range in Hd as [_ Hd]. lia.
Qed.

(** C5. The record that aggregation resolves for an owner is the one with
    the greatest id among the ledger's records [1 .. okrCount] owned by that
    address, whichever team it was submitted to (a record carries no team);
    without such a record the scan yields the encrypted zero.
    [recomputeTeamAggregate] uses, for each entry of the member list, just
    this ciphertext: its [FHE.add] calls add the initialized ones among
    them, in member order, and it stores their fold.  In particular, when A
    submits progress p20 and later p80 to team T, the value resolved for A
    is p80, both entries the two submissions appended to T's member list
    (and any earlier entry of A) resolve to p80, and the recomputation of T
    adds and stores p80 for each of them and p20 for none. *)
Theorem C5_latest_is_greatest_id `{fhe : FHE} (s : State) (who : Z) :
  (forall i, 1 <= i <= okrCount s -> owner (okrAt s i) = who ->
     (forall j, i < j <= okrCount s -> owner (okrAt s j) <> who) ->
     findLatestEncryptedProgress who s = encryptedProgress (okrAt s i))
  /\ ((forall i, 1 <= i <= okrCount s -> owner (okrAt s i) <> who) ->
      findLatestEncryptedProgress who s = asEuint32 0)
  /\ (forall ctx teamId,
        exists s',
          recomputeTeamAggregate ctx teamId s = Ok s'
          /\ map callRhs (recomputeAddCalls teamId s) =
               List.filter isInitialized
                 (map (fun m => findLatestEncryptedProgress m s) (membersAt s teamId))
          /\ encryptedSum (aggregateAt s' teamId) =
               fold_left add
                 (List.filter isInitialized
                    (map (fun m => findLatestEncryptedProgress m s) (membersAt s teamId)))
                 (asEuint32 0))
  /\ (forall ctx ctx' o k p20 o' k' p80 t s1 s2,
        0 <= okrCount s ->
        msg_sender ctx = who -> msg_sender ctx' = who ->
        submitEncryptedOKR ctx o k p20 t s = Ok s1 ->
        submitEncryptedOKR ctx' o' k' p80 t s1 = Ok s2 ->
        let resolve := fun m => if decide (m = who) then p80
                                else findLatestEncryptedProgress m s in
        findLatestEncryptedProgress who s2 = p80
        /\ membersAt s2 t = membersAt s t ++ [who; who]
        /\ resolvedOf t s2 = map resolve (membersAt s t) ++ [p80; p80]
        /\ map callRhs (recomputeAddCalls t s2) =
             List.filter isInitialized (map resolve (membersAt s t) ++ [p80; p80])
        /\ forall ctx'',
             exists s3,
               recomputeTeamAggregate ctx'' t s2 = Ok s3
               /\ encryptedSum (aggregateAt s3 t) =
                    fold_left add
                      (List.filter isInitialized
                         (map resolve (membersAt s t) ++ [p80; p80]))
                      (asEuint32 0)).
Proof.
  split; [|split; [|split]].
  - intros i Hi Hown Hlater. unfold findLatestEncryptedProgress.
    apply scanLatest_hit; [lia|exact Hown|].
    intros j Hj. apply Hlater. lia.
  - intros Hnone. unfold findLatestEncryptedProgress.
    apply scanLatest_miss. intros i Hi. apply Hnone. lia.
  - intros ctx teamId.
    destruct (recompute_ok ctx teamId s) as (s' & Hr & _ & _ & Ha & _).
    exists s'. split; [exact Hr|]. split; [apply recomputeAddCalls_rhs|].
    unfold aggregateAt. rewrite Ha, lookup_insert_eq. cbn.
    unfold aggregateOf. apply aggregateLoop_fold.
  - intros ctx ctx' o k p20 o' k' p80 t s1 s2 Hc Hw Hw' H1 H2 resolve.
    assert (Hc1 : 0 <= okrCount s1).
    { pose proof (submit_inv _ _ _ _ _ _ _ H1) as (_ & Hn & _). lia. }
    assert (Hfind : forall m, findLatestEncryptedProgress m s2 = resolve m).
    { intros m. unfold resolve.
      rewrite (findLatest_submit ctx' o' k' p80 t s1 s2 m Hc1 H2), Hw'.
      destruct (decide (m = who)) as [->|Hne]; [reflexivity|].
      rewrite (findLatest_submit ctx o k p20 t s s1 m Hc H1), Hw.
      destruct (decide (m = who)); [contradiction|reflexivity]. }
    assert (Hmem : membersAt s2 t = membersAt s t ++ [who; who]).
    { rewrite (membersAt_after_submit ctx' o' k' p80 t s1 s2 t H2).
      rewrite (membersAt_after_submit ctx o k p20 t s s1 t H1).
      destruct (decide (t = t)); [|contradiction].
      rewrite Hw, Hw', <- app_assoc. reflexivity. }
    assert (Hres : resolvedOf t s2 = map resolve (membersAt s t) ++ [p80; p80]).
    { unfold resolvedOf. rewrite Hmem, map_app. f_equal.
      - apply map_ext. exact Hfind.
      - cbn. rewrite !Hfind. unfold resolve.
        destruct (decide (who = who)); [reflexivity|contradiction]. }
    split.
    { rewrite Hfind. unfold resolve.
      destruct (decide (who = who)); [reflexivity|contradiction]. }
    split; [exact Hmem|]. split; [exact Hres|]. split.
    + rewrite recomputeAddCalls_rhs. fold (resolvedOf t s2). now rewrite Hres.
    + intros ctx''.
      destruct (recompute_ok ctx'' t s2) as (s3 & Hr & _ & _ & Ha & _).
      exists s3. split; [exact Hr|].
      unfold aggregateAt. rewrite Ha, lookup_insert_eq. cbn.
      unfold aggregateOf. rewrite aggregateLoop_fold.
      fold (resolvedOf t s2). now rewrite Hres.
Qed.

(** ** The aggregate in the clear *)

Section Wrap.

Context {fhe : FHE} {mir : Mirror fhe} {laws : MirrorLaws fhe mir}.

Lemma sumZ_nonneg (l : list Z) : (forall x, In x l -> 0 <= x) -> 0 <= sumZ l.
Proof.
  induction l as [|x rest IH]; intros Hall; [cbn; lia|].
  change (0 <= x + sumZ rest).
  assert (0 <= x) by (apply Hall; now left).
  assert (0 <= sumZ rest) by (apply IH; intros y Hy; apply Hall; now right).
  lia.
Qed.

Lemma fold_plainAdd (f : Z -> Z) (l : list Z) : forall a,
  0 <= a <= MAX_UINT32 ->
  fold_left (fun acc who => plainAdd acc (f who)) l a = (a + sumZ (map f l)) mod 2 ^ 32.
Proof.
  unfold MAX_UINT32. induction l as [|x rest IH]; intros a Ha.
  - cbn. rewrite Z.add_0_r. symmetry. apply Z.mod_small. lia.
  - change (fold_left (fun acc who => plainAdd acc (f who)) rest (plainAdd a (f x))
            = (a + (f x + sumZ (map f rest))) mod 2 ^ 32).
    rewrite IH.
    + unfold plainAdd. rewrite Zplus_mod_idemp_l. f_equal. lia.
    + unfold plainAdd. pose proof (Z.mod_pos_bound (a + f x) (2 ^ 32)). lia.
Qed.

End Wrap.

(** X15. For any FHE library with a plaintext mirror, the aggregate a
    recomputation stores decrypts to the ordinary sum of the decrypted
    resolved ciphertexts reduced modulo 2^32: it is that sum exactly while
    the sum fits [uint32], and wraps around silently beyond. *)
Theorem aggregate_wraps_mod_2_32 `{fhe : FHE} `{mir : !Mirror fhe}
  (laws : MirrorLaws fhe mir) (ctx : Call) (teamId : Z) (s : State) :
  exists s',
    recomputeTeamAggregate ctx teamId s = Ok s'
    /\ decrypt (encryptedSum (aggregateAt s' teamId))
       = sumZ (map decrypt (resolvedOf teamId s)) mod 2 ^ 32
    /\ (sumZ (map decrypt (resolvedOf teamId s)) <= MAX_UINT32 ->
        decrypt (encryptedSum (aggregateAt s' teamId))
        = sumZ (map decrypt (resolvedOf teamId s))).
Proof.
  destruct (recompute_ok ctx teamId s) as (s' & Hr & _ & _ & Ha & _).
  assert (Hsum : decrypt (encryptedSum (aggregateAt s' teamId))
                 = sumZ (map decrypt (resolvedOf teamId s)) mod 2 ^ 32).
  { unfold aggregateAt. rewrite Ha, lookup_insert_eq. cbn.
    unfold aggregateOf. rewrite aggregateLoop_decrypt.
    rewrite (fold_plainAdd (fun who => decrypt (findLatestEncryptedProgress who s))).
    - rewrite decrypt_asEuint32. unfold resolvedOf. rewrite map_map. reflexivity.
    - apply decrypt_range. }
  exists s'. split; [exact Hr|]. split; [exact Hsum|].
  intros Hfit. rewrite Hsum. apply Z.mod_small.
  assert (0 <= sumZ (map decrypt (resolvedOf teamId s))).
  { apply sumZ_nonneg. intros x Hx. apply in_map_iff in Hx as (c & <- & _).
    apply decrypt_range. }
  unfold MAX_UINT32 in Hfit. lia.
Qed.

(** * The creation dialog *)

Section Dialog.

Import ModalCreate.

Lemma trimStart_nil (s : jsString) :
  trimStart s = [] <-> forallb isWhiteSpace s = true.
Proof.
  induction s as [|c rest IH]; cbn; [tauto|].
  destruct (isWhiteSpace c); cbn; [exact IH|]. split; discriminate.
Qed.

Lemma trimStart_fixed (s : jsString) : trimStart (trimStart s) = trimStart s.
Proof.
  induction s as [|c rest IH]; cbn; [reflexivity|].
  destruct (isWhiteSpace c) eqn:Hc; [exact IH|]. cbn. now rewrite Hc.
Qed.

Lemma forallb_rev (f : Z -> bool) (l : list Z) : forallb f (rev l) = forallb f l.
Proof.
  induction l as [|x rest IH]; cbn; [reflexivity|].
  rewrite forallb_app, IH. cbn. rewrite andb_true_r. apply andb_comm.
Qed.

(** [trim] leaves nothing exactly of the strings made of white space. *)
Lemma trim_nil (s : jsString) : trim s = [] <-> forallb isWhiteSpace s = true.
Proof.
  unfold trim. split.
  - intros H. apply (f_equal (@rev Z)) in H. rewrite rev_involutive in H. cbn in H.
    apply trimStart_nil in H. rewrite forallb_rev in H.
    apply trimStart_nil in H. rewrite trimStart_fixed in H. now apply trimStart_nil.
  - intros H. apply trimStart_nil in H. rewrite H. reflexivity.
Qed.

Lemma forallb_false (f : Z -> bool) (l : list Z) :
  forallb f l = false <-> exists x, In x l /\ f x = false.
Proof.
  induction l as [|x rest IH]; cbn.
  - split; [discriminate|]. intros (x & [] & _).
  - destruct (f x) eqn:Hx; cbn.
    + rewrite IH. split.
      * intros (y & Hy & Hf). eauto.
      * intros (y & [->|Hy] & Hf); [congruence|eauto].
    + split; [|reflexivity]. intros _. exists x. auto.
Qed.

End Dialog.

(** X16. [removeKeyResult] never removes the last key result: a list with
    at least one entry keeps at least one.  With more than one entry and
    an index within the list it removes exactly the entry at the index,
    the entries before it staying and those after it moving up by one;
    with one entry or none, or with an index past the end, it changes
    nothing.  The objective and the progress are untouched. *)
Theorem removeKeyResult_spec (index : nat) (okrData : ModalCreate.OKRData) :
  let l := ModalCreate.keyResults okrData in
  let l' := ModalCreate.keyResults (ModalCreate.removeKeyResult index okrData) in
  ((1 <= length l)%nat -> (1 <= length l')%nat)
  /\ ((1 < length l)%nat -> (index < length l)%nat ->
      length l' = (length l - 1)%nat
      /\ (forall i, (i < index)%nat -> l' !! i = l !! i)
      /\ (forall i, (index <= i)%nat -> l' !! i = l !! S i))
  /\ ((length l <= 1)%nat \/ (length l <= index)%nat ->
      ModalCreate.removeKeyResult index okrData = okrData)
  /\ ModalCreate.objective (ModalCreate.removeKeyResult index okrData)
     = ModalCreate.objective okrData
  /\ ModalCreate.progress (ModalCreate.removeKeyResult index okrData)
     = ModalCreate.progress okrData.
Proof.
  destruct okrData as [obj l prog]. cbn. unfold ModalCreate.removeKeyResult. cbn.
  destruct (length l <=? 1)%nat eqn:Hle; cbn.
  - apply Nat.leb_le in Hle. repeat split; try lia; auto.
  - apply Nat.leb_gt in Hle.
    assert (Hlen : (index < length l)%nat ->
                   length (take index l ++ drop (S index) l) = (length l - 1)%nat).
    { intros Hi. rewrite length_app, length_take, length_drop. lia. }
    split; [|split; [|split; [|split; reflexivity]]].
    + intros _. destruct (Nat.lt_ge_cases index (length l)) as [Hi|Hi].
      * rewrite Hlen by assumption. lia.
      * rewrite take_ge, drop_ge, app_nil_r by lia. lia.
    + intros _ Hi. split; [now apply Hlen|]. split.
      * intros i Hlt. rewrite lookup_app_l by (rewrite length_take; lia).
        now apply lookup_take_lt.
      * intros i Hge. rewrite lookup_app_r by (rewrite length_take; lia).
        rewrite length_take, lookup_drop. f_equal. lia.
    + intros [H|H]; [lia|].
      rewrite take_ge, drop_ge, app_nil_r by lia. reflexivity.
Qed.

(** X17. [addKeyResult] appends one empty key result and nothing else;
    removing it again, at the last index, gives the form back when it had
    a key result before; and a form to which a key result has just been
    added is refused by [handleSubmit] until that key result is filled. *)
Theorem addKeyResult_spec (okrData : ModalCreate.OKRData) :
  ModalCreate.keyResults (ModalCreate.addKeyResult okrData)
    = ModalCreate.keyResults okrData ++ [[]]
  /\ (ModalCreate.keyResults okrData <> [] ->
      ModalCreate.removeKeyResult (length (ModalCreate.keyResults okrData))
        (ModalCreate.addKeyResult okrData) = okrData)
  /\ ModalCreate.handleSubmit (ModalCreate.addKeyResult okrData) = false.
Proof.
  destruct okrData as [obj l prog]. cbn. split; [reflexivity|]. split.
  - intros Hne. unfold ModalCreate.removeKeyResult, ModalCreate.addKeyResult. cbn.
    rewrite length_app. cbn.
    destruct l as [|x rest]; [contradiction|]. cbn [length].
    replace (S (length rest) + 1 <=? 1)%nat with false
      by (symmetry; apply Nat.leb_gt; lia).
    f_equal. change (S (length rest)) with (length (x :: rest)).
    rewrite take_app_length, drop_ge, app_nil_r; [reflexivity|].
    rewrite length_app. cbn. lia.
  - unfold ModalCreate.handleSubmit, ModalCreate.addKeyResult. cbn.
    rewrite existsb_app. cbn. rewrite !orb_true_r. reflexivity.
Qed.

(** X18. [handleSubmit] calls [onSubmit] exactly when the objective is not
    the empty string and every key result holds a character that is not
    white space; otherwise it alerts and returns.  In particular the form
    as reset by the application is refused. *)
Theorem handleSubmit_spec (okrData : ModalCreate.OKRData) :
  (ModalCreate.handleSubmit okrData = true <->
   ModalCreate.objective okrData <> []
   /\ forall kr, In kr (ModalCreate.keyResults okrData) ->
        exists c, In c kr /\ ModalCreate.isWhiteSpace c = false)
  /\ ModalCreate.handleSubmit ModalCreate.emptyForm = false.
Proof.
  split; [|reflexivity].
  unfold ModalCreate.handleSubmit.
  destruct (bool_decide (ModalCreate.objective okrData = [])) eqn:Hobj; cbn.
  - apply bool_decide_eq_true in Hobj. split; [discriminate|]. intros [H _]. contradiction.
  - apply bool_decide_eq_false in Hobj.
    destruct (existsb _ (ModalCreate.keyResults okrData)) eqn:Hex.
    + split; [discriminate|]. intros [_ Hall].
      apply existsb_exists in Hex as (kr & Hin & Hkr).
      apply bool_decide_eq_true in Hkr. apply trim_nil in Hkr.
      destruct (Hall kr Hin) as (c & Hc & Hw).
      assert (forallb ModalCreate.isWhiteSpace kr = false)
        by (apply forallb_false; eauto).
      congruence.
    + split; [|reflexivity]. intros _. split; [exact Hobj|].
      intros kr Hin. apply forallb_false.
      destruct (forallb ModalCreate.isWhiteSpace kr) eqn:Hall; [|reflexivity].
      exfalso. apply trim_nil in Hall.
      assert (existsb (fun kr => bool_decide (ModalCreate.trim kr = []))
                (ModalCreate.keyResults okrData) = true).
      { apply existsb_exists. exists kr. split; [exact Hin|].
        now apply bool_decide_eq_true. }
      congruence.
Qed.

(** * Instances of the further properties *)

Section MoreInstances.

Import PlainMirror MirrorRuns.

Example mixed_run_log :
  events (run mixedOps initialState)
  = [OKRSubmitted 1 alice 100; TeamAggregated team1 101; OKRSubmitted 2 bob 102;
     OKRSubmitted 3 alice 103; TeamAggregated team1 104; DecryptionRequested 0;
     AggregateDecrypted team1 140].
Proof. reflexivity. Qed.

Lemma getEncryptedOKR_witness :
  is_Some (encryptedOkrs (run mixedOps initialState) !! 2)
  /\ id (getEncryptedOKR 2 (run mixedOps initialState)) = 2.
Proof.
  apply (proj1 (proj2 (getEncryptedOKR_reachable (fhe := mirrorFHE) mixedOps 2))).
  change (1 <= 2 <= 3). lia.
Defined.

Lemma log_matches_ledger_witness :
  1 <= 2 <= okrCount (run mixedOps initialState)
  /\ id (getEncryptedOKR 2 (run mixedOps initialState)) = 2
  /\ owner (getEncryptedOKR 2 (run mixedOps initialState)) = bob
  /\ timestamp (getEncryptedOKR 2 (run mixedOps initialState)) = 102.
Proof.
  apply (proj2 (log_matches_ledger (fhe := mirrorFHE) mixedOps) 2 bob 102).
  rewrite mixed_run_log. apply list_elem_of_In. cbn. auto.
Defined.

Lemma member_resolves_witness :
  exists j, 1 <= j <= okrCount sMixed
            /\ owner (okrAt sMixed j) = alice
            /\ (forall k, j < k <= okrCount sMixed -> owner (okrAt sMixed k) <> alice)
            /\ findLatestEncryptedProgress alice sMixed = encryptedProgress (okrAt sMixed j).
Proof.
  apply (member_resolves_to_own_record (fhe := mirrorFHE) mixedOps team1 alice).
  change (alice ∈ [alice; bob]). apply list_elem_of_In. cbn. auto.
Defined.

Lemma members_append_only_witness :
  membersAt (run betweenOps sAggregated) team1 = membersAt sAggregated team1.
Proof.
  apply (proj2 (members_append_only (fhe := mirrorFHE) betweenOps sAggregated team1)).
  reflexivity.
Defined.

Lemma decrypted_event_witness :
  team1 <> 0
  /\ is_Some (teamAggregates (run mixedOps initialState) !! team1)
  /\ 0 <= 140 <= MAX_UINT32
  /\ exists r, requestToTeamId (run mixedOps initialState) !! r = Some team1
               /\ DecryptionRequested r ∈ events (run mixedOps initialState).
Proof.
  apply (decrypted_event_provenance (fhe := mirrorFHE) mixedOps team1 140).
  rewrite mixed_run_log. apply list_elem_of_In. cbn. tauto.
Defined.

Lemma request_has_aggregate_witness :
  is_Some (teamAggregates sMixed !! team1)
  /\ idHash (aggregateAt sMixed team1) = team1
  /\ DecryptionRequested 0 ∈ events sMixed
  /\ 0 <= 0 < counterRequest sMixed.
Proof.
  apply (request_has_aggregate mirror_handles mixedOps 0 team1). reflexivity.
Defined.

Lemma submission_moves_witness :
  findLatestEncryptedProgress alice sAfterCross = HVal 80
  /\ forall who, who <> alice ->
       findLatestEncryptedProgress who sAfterCross
       = findLatestEncryptedProgress who sBeforeCross.
Proof.
  apply (submission_moves_only_sender (fhe := mirrorFHE)
           (at_ alice 103) (HVal 1) (HVal 2) (HVal 80) team2 sBeforeCross sAfterCross).
  - change (0 <= 2). lia.
  - reflexivity.
Defined.

Lemma submission_reaches_witness :
  membersAt sAfterCross team1 = membersAt sBeforeCross team1
  /\ resolvedOf team1 sAfterCross =
       map (fun m => if decide (m = alice) then HVal 80
                     else findLatestEncryptedProgress m sBeforeCross)
         (membersAt sBeforeCross team1)
  /\ (alice ∈ membersAt sBeforeCross team1 -> HVal 80 ∈ resolvedOf team1 sAfterCross).
Proof.
  apply (submission_reaches_other_teams (fhe := mirrorFHE)
           (at_ alice 103) (HVal 1) (HVal 2) (HVal 80) team2 team1 sBeforeCross sAfterCross).
  - change (0 <= 2). lia.
  - discriminate.
  - reflexivity.
Defined.

Lemma empty_team_witness :
  recomputeAddCalls team9 sAggregated = []
  /\ exists s' s'',
       recomputeTeamAggregate (at_ bob 110) team9 sAggregated = Ok s'
       /\ encryptedSum (aggregateAt s' team9) = HVal 0
       /\ requestTeamAggregateDecryption (at_ stranger 111) team9 s' = Ok s''
       /\ requestToTeamId s'' !! counterRequest s' = Some team9.
Proof.
  apply (empty_team_aggregate mirror_handles (at_ bob 110) (at_ stranger 111)
           team9 sAggregated).
  reflexivity.
Defined.

Lemma callback_rejected_witness :
  (exists e, call (DecryptTeamAggregate (at_ stranger 104) 0 answer100 badProof) sRequested
             = Revert e)
  /\ transact (DecryptTeamAggregate (at_ stranger 104) 0 answer100 badProof) sRequested
     = sRequested.
Proof.
  apply (callback_rejected (fhe := mirrorFHE)
           (at_ stranger 104) 0 answer100 badProof sRequested).
  left. reflexivity.
Defined.

Lemma aggregate_wraps_witness :
  exists s',
    recomputeTeamAggregate (at_ bob 102) team1 (run bigOps initialState) = Ok s'
    /\ decrypt (encryptedSum (aggregateAt s' team1))
       = sumZ (map decrypt (resolvedOf team1 (run bigOps initialState))) mod 2 ^ 32.
Proof.
  destruct (aggregate_wraps_mod_2_32 mirror_laws (at_ bob 102) team1 (run bigOps initialState))
    as (s' & H1 & H2 & _).
  exists s'. split; [exact H1|exact H2].
Defined.

(** The two progress values 4294967295 and 2 aggregate to 1. *)
Example aggregate_wraps_value :
  sumZ (map decrypt (resolvedOf team1 (run bigOps initialState))) = 4294967297
  /\ decrypt (fst (aggregateOf team1 (run bigOps initialState))) = 1.
Proof. split; reflexivity. Qed.

Lemma removeKeyResult_witness :
  ModalCreate.keyResults (ModalCreate.removeKeyResult 0 formTwo) !! 0%nat
  = ModalCreate.keyResults formTwo !! 1%nat.
Proof.
  apply (proj1 (proj2 (removeKeyResult_spec 0 formTwo))); cbn; lia.
Defined.

Lemma addKeyResult_witness :
  ModalCreate.removeKeyResult 2 (ModalCreate.addKeyResult formTwo) = formTwo.
Proof.
  apply (proj1 (proj2 (addKeyResult_spec formTwo))). discriminate.
Defined.

Lemma handleSubmit_witness : ModalCreate.handleSubmit formTwo = true.
Proof.
  apply (proj1 (handleSubmit_spec formTwo)). split; [discriminate|].
  intros kr [<-|[<-|[]]].
  - exists 97. split; [now left|reflexivity].
  - exists 98. split; [now left|reflexivity].
Defined.

Lemma C5_witness :
  findLatestEncryptedProgress alice
    (run [submitOp sub20; submitOp sub80] initialState) = HVal 80
  /\ membersAt (run [submitOp sub20; submitOp sub80] initialState) team1 = [alice; alice]
  /\ resolvedOf team1 (run [submitOp sub20; submitOp sub80] initialState)
     = [HVal 80; HVal 80]
  /\ map callRhs (recomputeAddCalls team1 (run [submitOp sub20; submitOp sub80] initialState))
     = [HVal 80; HVal 80].
Proof.
  destruct (proj2 (proj2 (proj2 (C5_latest_is_greatest_id (fhe := mirrorFHE)
                                   initialState alice)))
              (at_ alice 100) (at_ alice 101) (HVal 1) (HVal 2) (HVal 20)
              (HVal 1) (HVal 2) (HVal 80) team1
              (run [submitOp sub20] initialState)
              (run [submitOp sub20; submitOp sub80] initialState))
    as (H1 & H2 & H3 & H4 & _).
  - cbn. lia.
  - reflexivity.
  - reflexivity.
  - reflexivity.
  - reflexivity.
  - split; [exact H1|]. split; [exact H2|]. split; [exact H3|exact H4].
Defined.

End MoreInstances.
